(** * pistache stream layer: window buffers, cursor and matchers

    A shallow embedding of [src/stream.h] and [src/stream.cc]: the get area of
    a [StreamBuf], the fixed-capacity [ArrayStreamBuf], the growable
    [NetworkStream], the [StreamCursor] with its [Revert] guard, and the free
    matcher functions [match_raw], [match_literal], [match_until] and
    [match_double].

    Conventions.
    - A pointer is an address in [Z]; [nullptr] is [0].
    - A byte in memory is a [Z] in [0, 256) (the object representation of a
      [char]); two [char]s are equal exactly when their bytes are.
    - [size_t] is 64 bits wide; its wrap-around is written [wrap64].
    - Cursor code runs in a small state monad over [Machine]: the get area of
      the buffer the cursor points to, and the list of addresses the code has
      loaded from so far. *)

From Stdlib Require Import ZArith Bool Lia String Ascii QArith List.
Import ListNotations.
Open Scope Z_scope.

(** ** Machine integers and characters *)

Definition size_max : Z := 2 ^ 64.
Definition ptrdiff_max : Z := 2 ^ 63 - 1.

Definition wrap64 (z : Z) : Z := z mod size_max.

(** [traits_type::eof()] and [StreamCursor::Eof]. *)
Definition Eof : Z := -1.

Definition CR : Z := 13.
Definition LF : Z := 10.

(** Conversion of an [int] to [char], kept as the byte that represents it. *)
Definition int_to_char (i : Z) : Z := i mod 256.

(** Conversion of a (signed) [char] to [int]: bytes from 128 up are the
    negative values. *)
Definition char_to_int (c : Z) : Z := if c <? 128 then c else c - 256.

(** [std::tolower] in the "C" locale, on the byte of a [char], the result
    converted back to [char]: only 'A'..'Z' are mapped. *)
Definition tolower (c : Z) : Z :=
  if (65 <=? c) && (c <=? 90) then c + 32 else c.

Definition isdigit (c : Z) : bool := (48 <=? c) && (c <=? 57).

Definition isspace (c : Z) : bool := (c =? 32) || ((9 <=? c) && (c <=? 13)).

Definition bytes_of_string (s : string) : list Z :=
  map (fun a => Z.of_nat (nat_of_ascii a)) (list_ascii_of_string s).

(** ** Memory *)

(** A region of bytes starting at address [mbase]. Addresses outside of it
    read as [0]. *)
Record Memory := mkMemory { mbase : Z; mbytes : list Z }.

Definition load (m : Memory) (a : Z) : Z :=
  if a <? mbase m then 0 else nth (Z.to_nat (a - mbase m)) (mbytes m) 0.

(** The bytes of memory from address [a] on. *)
Definition bytes_from (m : Memory) (a : Z) : list Z :=
  if a <? mbase m then [] else skipn (Z.to_nat (a - mbase m)) (mbytes m).

(** ** The get area and the machine state *)

(** The three get-area pointers of [std::basic_streambuf]. *)
Record StreamBuf := mkStreamBuf { eback : Z; gptr : Z; egptr : Z }.

Record Machine := mkMachine { sb : StreamBuf; loads : list Z }.

Definition M (A : Type) : Type := Machine -> A * Machine.

Definition ret {A : Type} (a : A) : M A := fun w => (a, w).

Definition bind {A B : Type} (c : M A) (k : A -> M B) : M B :=
  fun w => let (a, w') := c w in k a w'.

Declare Scope stream_scope.
Delimit Scope stream_scope with stream.
Notation "x <- c ;; k" := (bind c (fun x => k))
  (at level 61, c at next level, right associativity) : stream_scope.
Notation "c ;; k" := (bind c (fun _ => k))
  (at level 61, right associativity) : stream_scope.
Open Scope stream_scope.

Definition get_area : M StreamBuf := fun w => (sb w, w).

(** [std::basic_streambuf::setg]. *)
Definition setg (b c e : Z) : M unit :=
  fun w => (tt, mkMachine (mkStreamBuf b c e) (loads w)).

(** [std::basic_streambuf::gbump(1)]. *)
Definition gbump1 : M unit :=
  fun w => (tt, mkMachine (mkStreamBuf (eback (sb w)) (gptr (sb w) + 1) (egptr (sb w)))
                          (loads w)).

Section Cursor.

Variable mem : Memory.

(** [*p]: the byte at [p]; the access is recorded. *)
Definition deref (p : Z) : M Z :=
  fun w => (load mem p, mkMachine (sb w) (loads w ++ [p])).

(** *** [std::basic_streambuf] members, with the default virtuals
    ([showmanyc] returns 0, [underflow] and [uflow] return eof). A read
    position is available when [gptr < egptr]. The members are modelled for
    get areas with [gptr <= egptr]; on an area with [egptr < gptr], which no
    well-formed window is, an implementation may compute [in_avail] as the
    negative difference [egptr - gptr] where this model gives 0. *)

Definition in_avail : M Z :=
  b <- get_area ;;
  ret (if gptr b <? egptr b then egptr b - gptr b else 0).

Definition sgetc : M Z :=
  b <- get_area ;;
  if gptr b <? egptr b then deref (gptr b) else ret Eof.

Definition sbumpc : M Z :=
  b <- get_area ;;
  if gptr b <? egptr b
  then (c <- deref (gptr b) ;; gbump1 ;; ret c)
  else ret Eof.

(** *** [StreamBuf<CharT>] *)

Definition setArea (b c e : Z) : M unit := setg b c e.

Definition begptr : M Z := b <- get_area ;; ret (eback b).
Definition curptr : M Z := b <- get_area ;; ret (gptr b).
Definition endptr : M Z := b <- get_area ;; ret (egptr b).

Definition position : M Z :=
  b <- get_area ;; ret (wrap64 (gptr b - eback b)).

Definition StreamBuf_reset : M unit := setg 0 0 0.

Definition snext : M Z :=
  b <- get_area ;;
  if gptr b =? egptr b then ret Eof
  else (c <- deref (gptr b + 1) ;; ret (char_to_int c)).

(** *** [StreamCursor] *)

Fixpoint bump_loop (n : nat) : M unit :=
  match n with
  | O => ret tt
  | S k => sbumpc ;; bump_loop k
  end.

Definition advance (count : Z) : M bool :=
  n <- in_avail ;;
  if n <? count then ret false
  else (bump_loop (Z.to_nat count) ;; ret true).

Definition next : M Z :=
  n <- in_avail ;;
  if n <? 1 then ret Eof else snext.

Definition current : M Z := c <- sgetc ;; ret (int_to_char c).

Definition eol : M bool :=
  c <- sgetc ;;
  if c =? CR then (n <- next ;; ret (n =? LF)) else ret false.

Definition remaining : M Z := in_avail.

Definition eof : M bool := r <- remaining ;; ret (r =? 0).

Definition offset : M Z := curptr.

Definition offset_at (off : Z) : M Z := b <- begptr ;; ret (b + off).

Definition diff (other : Z) : M Z :=
  p <- position ;; ret (wrap64 (p - other)).

Definition reset : M unit := StreamBuf_reset.

(** [StreamCursor::StreamCursor(buf, initialPos)]. *)
Definition StreamCursor_init (initialPos : Z) : M unit :=
  advance initialPos ;; ret tt.

End Cursor.

(** *** [StreamCursor::Revert] *)

Record Revert := mkRevert {
  r_eback : Z;
  r_gptr : Z;
  r_egptr : Z;
  active : bool
}.

(** The constructor: the three pointers of the buffer are copied. *)
Definition Revert_new : M Revert :=
  b <- begptr ;; c <- curptr ;; e <- endptr ;; ret (mkRevert b c e true).

Definition revert (r : Revert) : M unit :=
  setArea (r_eback r) (r_gptr r) (r_egptr r).

Definition ignore (r : Revert) : Revert :=
  mkRevert (r_eback r) (r_gptr r) (r_egptr r) false.

(** The destructor. *)
Definition Revert_delete (r : Revert) : M unit :=
  if active r then revert r else ret tt.

(** A run of [advance] calls whose results are dropped. *)
Fixpoint advances (mem : Memory) (counts : list Z) : M unit :=
  match counts with
  | [] => ret tt
  | c :: cs => advance mem c ;; advances mem cs
  end.

(** ** The C library's [strtod]

    [strtod] is not part of the repository. Its result is given as a record:
    the value, how many characters the conversion consumed ([*endptr - nptr])
    and how many characters it looked at. *)

Record StrtodResult := mkStrtod {
  sd_value : Q;
  sd_consumed : nat;
  sd_inspected : nat
}.

(** A model of [strtod] for decimal literals: white space, an optional sign,
    digits with an optional fraction, an optional exponent. The value is the
    rational number the literal denotes, in lowest terms (the [double] that
    the C function returns is that number rounded). When there is no
    conversion the value is zero and nothing is consumed. Hexadecimal
    literals, infinities and NaNs are left out. *)

Fixpoint skip_spaces (s : list Z) : nat * list Z :=
  match s with
  | c :: t => if isspace c
              then let (n, r) := skip_spaces t in (S n, r)
              else (O, s)
  | [] => (O, [])
  end.

Fixpoint scan_digits (s : list Z) (acc : Z) : Z * nat * list Z :=
  match s with
  | c :: t => if isdigit c
              then let '(v, n, r) := scan_digits t (10 * acc + (c - 48)) in
                   (v, S n, r)
              else (acc, O, s)
  | [] => (acc, O, [])
  end.

Definition scan_sign (s : list Z) : bool * nat * list Z :=
  match s with
  | c :: t => if c =? 45 then (true, 1%nat, t)
              else if c =? 43 then (false, 1%nat, t)
              else (false, O, s)
  | [] => (false, O, [])
  end.

(** The exponent part: its value, the characters it takes and the characters
    looked at. An 'e' that no digit follows is not part of the number. *)
Definition scan_exponent (s : list Z) : Z * nat * nat :=
  match s with
  | c :: t =>
      if (c =? 101) || (c =? 69)
      then let '(eneg, nes, t2) := scan_sign t in
           let '(ev, ne, _) := scan_digits t2 0 in
           if (ne =? 0)%nat then (0, O, (2 + nes)%nat)
           else (if eneg then - ev else ev, (1 + nes + ne)%nat, (2 + nes + ne)%nat)
      else (0, O, 1%nat)
  | [] => (0, O, 1%nat)
  end.

Definition strtod_decimal (s : list Z) : StrtodResult :=
  let (nsp, s1) := skip_spaces s in
  let '(neg, nsg, s2) := scan_sign s1 in
  let '(ip, ni, s3) := scan_digits s2 0 in
  let '(m, nf, ndot, s4) :=
    match s3 with
    | c :: t => if c =? 46
                then let '(v, n, r) := scan_digits t ip in (v, n, 1%nat, r)
                else (ip, O, O, s3)
    | [] => (ip, O, O, s3)
    end in
  if (ni + nf =? 0)%nat
  then mkStrtod 0 O (nsp + nsg + ndot + 1)%nat
  else
    let n_mant := (nsp + nsg + ni + ndot + nf)%nat in
    let '(ex, nexp, looked) := scan_exponent s4 in
    mkStrtod
      (Qred (inject_Z (if neg then - m else m)
             * Qpower (inject_Z 10) (ex - Z.of_nat nf)))
      (n_mant + nexp)%nat
      (n_mant + looked)%nat.

(** ** The matchers *)

Inductive CaseSensitivity := Sensitive | Insensitive.

Definition is_Sensitive (cs : CaseSensitivity) : bool :=
  match cs with Sensitive => true | Insensitive => false end.

Definition is_Insensitive (cs : CaseSensitivity) : bool :=
  match cs with Sensitive => false | Insensitive => true end.

(** The comparison made by [memcmp], on two lists of bytes: 0 when they
    agree, otherwise the difference at the first place where they differ. *)
Fixpoint compare_bytes (xs ys : list Z) : Z :=
  match xs, ys with
  | x :: xs', y :: ys' => if x =? y then compare_bytes xs' ys' else x - y
  | _, _ => 0
  end.

(** The lambda [find] of [match_until]. *)
Fixpoint find (cs : CaseSensitivity) (chars : list Z) (val : Z) : bool :=
  match chars with
  | [] => false
  | c :: rest =>
      let lhs := if is_Sensitive cs then c else tolower c in
      let rhs := if is_Insensitive cs then val else tolower val in
      if lhs =? rhs then true else find cs rest val
  end.

Section Matchers.

Variable mem : Memory.
Variable strtod : list Z -> StrtodResult.

(** Loads of the [n] bytes from [p] on, in order. *)
Fixpoint load_range (p : Z) (n : nat) : M (list Z) :=
  match n with
  | O => ret []
  | S k => x <- deref mem p ;; xs <- load_range (p + 1) k ;; ret (x :: xs)
  end.

(** [memcmp(p, buf, len)]: the [len] bytes at [p] against those of [buf]. *)
Definition memcmp (p : Z) (buf : list Z) (len : Z) : M Z :=
  xs <- load_range p (Z.to_nat len) ;;
  ret (compare_bytes xs (firstn (Z.to_nat len) buf)).

Definition match_raw (buf : list Z) (len : Z) : M bool :=
  r <- remaining ;;
  if r <? len then ret false
  else
    p <- offset ;;
    c <- memcmp p buf len ;;
    if c =? 0 then (advance mem len ;; ret true) else ret false.

Definition match_literal (c : Z) (cs : CaseSensitivity) : M bool :=
  e <- eof ;;
  if e then ret false
  else
    lhs <- (if is_Sensitive cs then ret c else ret (tolower c)) ;;
    rhs <- (if is_Insensitive cs then current mem
            else (x <- current mem ;; ret (tolower x))) ;;
    if lhs =? rhs then (advance mem 1 ;; ret true) else ret false.

(** The [while] loop of [match_until]; [None] when the fuel runs out. *)
Fixpoint until_loop (fuel : nat) (chars : list Z) (cs : CaseSensitivity)
  : M (option bool) :=
  match fuel with
  | O => ret None
  | S k =>
      e <- eof ;;
      if e then ret (Some false)
      else
        c <- current mem ;;
        if find cs chars c then ret (Some true)
        else (advance mem 1 ;; until_loop k chars cs)
  end.

Definition match_until_fuel (fuel : nat) (chars : list Z) (cs : CaseSensitivity)
  : M (option bool) :=
  e <- eof ;;
  if e then ret (Some false) else until_loop fuel chars cs.

(** Every round of the loop consumes a byte, so one round more than the
    bytes that remain is enough. *)
Definition match_until (chars : list Z) (cs : CaseSensitivity) : M (option bool) :=
  r <- remaining ;;
  match_until_fuel (S (Z.to_nat r)) chars cs.

Definition match_until_char (c : Z) (cs : CaseSensitivity) : M (option bool) :=
  match_until [c] cs.

(** [match_double]: the second component of the result is [*val] after
    the call. The [val] argument is [*val] before it. *)
Definition match_double (val : Q) : M (bool * Q) :=
  p <- offset ;;
  let r := strtod (bytes_from mem p) in
  load_range p (sd_inspected r) ;;
  let val' := sd_value r in
  let end_ := p + Z.of_nat (sd_consumed r) in
  p1 <- offset ;;
  if end_ =? p1 then ret (false, val')
  else (p2 <- offset ;; advance mem (end_ - p2) ;; ret (true, val')).

End Matchers.

(** ** [ArrayStreamBuf<N>] *)

Module ArrayStreamBuf.

(** The object: the array [bytes], the member [size] and the get area of
    the base class. [this_bytes] is the address of the array. *)
Record t := mk {
  this_bytes : Z;
  bytes : list Z;
  size : Z;
  area : StreamBuf
}.

(** [memcpy(dst + off, src, len)] on the contents of the array. *)
Definition memcpy (dst : list Z) (off : Z) (src : list Z) (len : Z) : list Z :=
  firstn (Z.to_nat off) dst
  ++ firstn (Z.to_nat len) src
  ++ skipn (Z.to_nat (off + len)) dst.

(** The default constructor, for an object placed at [addr]. *)
Definition create (N : Z) (addr : Z) : t :=
  mk addr (repeat 0 (Z.to_nat N)) 0 (mkStreamBuf addr addr addr).

(** The constructor from an array of [M] bytes. It copies the [M] bytes and
    does not touch the elements from [M] on, whose values are indeterminate;
    they are taken as zero here. *)
Definition of_array (N : Z) (addr : Z) (arr : list Z) : t :=
  let M := Z.of_nat (length arr) in
  mk addr (memcpy (repeat 0 (Z.to_nat N)) 0 arr M) M
     (mkStreamBuf addr addr (addr + M)).

Definition feed (N : Z) (data : list Z) (len : Z) (b : t) : bool * t :=
  if N <=? wrap64 (size b + len) then (false, b)
  else
    (true,
     mk (this_bytes b)
        (memcpy (bytes b) (size b) data len)
        (wrap64 (size b + len))
        (mkStreamBuf (this_bytes b)
                     (this_bytes b + size b)
                     (this_bytes b + size b + len))).

Definition reset (N : Z) (b : t) : t :=
  mk (this_bytes b) (repeat 0 (Z.to_nat N)) 0
     (mkStreamBuf (this_bytes b) (this_bytes b) (this_bytes b)).

End ArrayStreamBuf.

(** ** [NetworkStream] *)

Module NetworkStream.

(** [data_] is the vector; [pptr] and [epptr] are the put-area pointers,
    kept as offsets from [&data_[0]]. *)
Record t := mk {
  maxSize_ : Z;
  data_ : list Z;
  pptr : Z;
  epptr : Z
}.

(** [std::vector<char>::resize]: truncates, or pads with zero bytes. *)
Definition resize (v : list Z) (n : Z) : list Z :=
  firstn (Z.to_nat n) v ++ repeat 0 (Z.to_nat n - length v).

(** [*p = c] for [p] at offset [i] of the vector. *)
Fixpoint store (v : list Z) (i : nat) (c : Z) : list Z :=
  match v, i with
  | [], _ => []
  | _ :: r, O => c :: r
  | x :: r, S k => x :: store r k c
  end.

Definition reserve (size : Z) (s : t) : t :=
  let size := if maxSize_ s <? size then maxSize_ s else size in
  let oldSize := Z.of_nat (length (data_ s)) in
  mk (maxSize_ s) (resize (data_ s) size) oldSize size.

(** The constructor [NetworkStream(size, maxSize)]. *)
Definition create (size maxSize : Z) : t :=
  reserve size (mk maxSize [] 0 0).

(** [overflow(ch)]: the returned [int_type], and the stream after it. *)
Definition overflow (ch : Z) (s : t) : Z * t :=
  if negb (ch =? Eof)
  then
    let size := Z.of_nat (length (data_ s)) in
    if size <? maxSize_ s
    then
      let s1 := reserve (wrap64 (size * 2)) s in
      let s2 := mk (maxSize_ s1)
                   (store (data_ s1) (Z.to_nat (pptr s1)) (int_to_char ch))
                   (pptr s1 + 1) (epptr s1) in
      (ch, s2)
    else (Eof, s)
  else (Eof, s).

(** [std::basic_streambuf::sputc]: writes into the put area when there is
    room, calls [overflow] otherwise. [c] is a byte, so [to_int_type c] is
    [c] itself. *)
Definition sputc (c : Z) (s : t) : Z * t :=
  if pptr s <? epptr s
  then (c, mk (maxSize_ s) (store (data_ s) (Z.to_nat (pptr s)) c)
              (pptr s + 1) (epptr s))
  else overflow c s.

(** [buffer()]: the bytes written so far ([Buffer::data] up to
    [Buffer::len]) and [Buffer::len]. *)
Definition buffer (s : t) : list Z * Z :=
  (firstn (Z.to_nat (pptr s)) (data_ s), pptr s).

Definition capacity (s : t) : Z := Z.of_nat (length (data_ s)).

(** Writing the bytes of [cs] one at a time; stops at the first write that
    fails. The result tells whether all writes succeeded. *)
Fixpoint write_all (cs : list Z) (s : t) : bool * t :=
  match cs with
  | [] => (true, s)
  | c :: rest =>
      let (r, s') := sputc c s in
      if r =? Eof then (false, s') else write_all rest s'
  end.

End NetworkStream.

(** ** [RawStreamBuf] and [StreamCursor::Token] *)

(** [RawStreamBuf(begin, end)] and [RawStreamBuf(begin, len)]: the get area
    the constructors set. *)
Definition RawStreamBuf (begin end_ : Z) : StreamBuf :=
  mkStreamBuf begin begin end_.

Definition RawStreamBuf_len (begin len : Z) : StreamBuf :=
  mkStreamBuf begin begin (begin + len).

(** [Token]: the position and the three pointers at construction. *)
Record Token := mkToken {
  t_position : Z;
  t_eback : Z;
  t_gptr : Z;
  t_egptr : Z
}.

Definition Token_new : M Token :=
  p <- position ;; b <- begptr ;; c <- curptr ;; e <- endptr ;;
  ret (mkToken p b c e).

Definition Token_start (t : Token) : Z := t_position t.

(** [Token::end()]: the position of the cursor at the time of the call. *)
Definition Token_end : M Z := position.

Definition Token_size (t : Token) : M Z :=
  e <- Token_end ;; ret (wrap64 (e - Token_start t)).

(** [Token::text()]: [std::string(gptr, size())] copies [size()] bytes from
    the pointer the token has kept. *)
Definition Token_text (mem : Memory) (t : Token) : M (list Z) :=
  n <- Token_size t ;; load_range mem (t_gptr t) (Z.to_nat n).

Definition Token_rawText (t : Token) : Z := t_gptr t.

(** [StreamCursor::diff(const StreamCursor& other)], [other] being a cursor
    over a buffer of its own. *)
Definition diff_cursor (other : Machine) : M Z :=
  p <- position ;; ret (wrap64 (fst (position other) - p)).

(** ** Vocabulary of the statements *)

(** The addresses [p], [p + 1], ..., [p + n - 1]. *)
Fixpoint addrs (p : Z) (n : nat) : list Z :=
  match n with
  | O => []
  | S k => p :: addrs (p + 1) k
  end.

(** A get area as the constructors of the buffers set it up: pointers are
    addresses of a 64-bit machine, in the order start, current, end. *)
Definition well_formed (b : StreamBuf) : Prop :=
  0 <= eback b /\ eback b <= gptr b /\ gptr b <= egptr b /\ egptr b < size_max.

(** The address [a] lies in the readable part of the window. *)
Definition in_window (b : StreamBuf) (a : Z) : Prop :=
  gptr b <= a < egptr b.

(** The machine of a cursor over a fresh buffer of [n] bytes at [base]. *)
Definition fresh (base n : Z) : Machine :=
  mkMachine (mkStreamBuf base base (base + n)) [].

(** Equality of two bytes under a case policy, as the specification words
    it: exact for [Sensitive], after case folding of both sides for
    [Insensitive]. *)
Definition equal_under (cs : CaseSensitivity) (c x : Z) : bool :=
  match cs with
  | Sensitive => c =? x
  | Insensitive => tolower c =? tolower x
  end.

(** The byte the cursor would read at address [a], as a [char]. *)
Definition char_at (mem : Memory) (a : Z) : Z := int_to_char (load mem a).

(** The outcome [res] of a scan by [match_until] that started in machine
    [w]: the loop has come to an end with answer [b]; only the current
    pointer has moved, forwards; no byte that was passed satisfies [find];
    on [true] the cursor stands on a byte of the window that satisfies
    [find], on [false] it stands at the end; every load of the scan was
    inside the window. *)
Definition scan_outcome (mem : Memory) (chars : list Z) (cs : CaseSensitivity)
           (w : Machine) (res : option bool * Machine) : Prop :=
  exists b : bool,
    fst res = Some b /\
    eback (sb (snd res)) = eback (sb w) /\
    egptr (sb (snd res)) = egptr (sb w) /\
    gptr (sb w) <= gptr (sb (snd res)) /\
    (forall a, gptr (sb w) <= a < gptr (sb (snd res)) ->
               find cs chars (char_at mem a) = false) /\
    (b = true -> gptr (sb (snd res)) < egptr (sb w) /\
                 find cs chars (char_at mem (gptr (sb (snd res)))) = true) /\
    (b = false -> egptr (sb w) <= gptr (sb (snd res)) /\
                  (gptr (sb w) <= egptr (sb w) ->
                   gptr (sb (snd res)) = egptr (sb w))) /\
    exists l, loads (snd res) = loads w ++ l /\ Forall (in_window (sb w)) l.

(** A byte as it is handed to [sputc] or kept in memory. *)
Definition is_byte (c : Z) : Prop := 0 <= c < 256.

(** An [ArrayStreamBuf<N>] as its constructors and [feed] leave it: the
    array has [N] elements, and [size] counts some of them. No object is
    larger than [ptrdiff_max]. *)
Definition array_ok (N : Z) (b : ArrayStreamBuf.t) : Prop :=
  Z.of_nat (length (ArrayStreamBuf.bytes b)) = N /\
  0 <= ArrayStreamBuf.size b <= N /\
  N <= ptrdiff_max.

(** A [NetworkStream] as its constructor and [sputc] leave it: the put area
    ends where the vector ends, the vector is not empty and not larger than
    [maxSize_], which is at most the largest size of a vector. *)
Definition stream_ok (s : NetworkStream.t) : Prop :=
  0 <= NetworkStream.pptr s <= NetworkStream.epptr s /\
  NetworkStream.epptr s = NetworkStream.capacity s /\
  1 <= NetworkStream.capacity s <= NetworkStream.maxSize_ s /\
  NetworkStream.maxSize_ s <= ptrdiff_max.

(** ** Vocabulary of the further statements *)

(** An ASCII upper-case letter, the bytes [tolower] changes. *)
Definition is_upper (x : Z) : bool := (65 <=? x) && (x <=? 90).

(** Memory that holds bytes. *)
Definition memory_ok (mem : Memory) : Prop := Forall is_byte (mbytes mem).

(** From window [b] to window [b']: start and end are kept and the current
    pointer has moved forwards, not beyond the end. *)
Definition moved_forward (b b' : StreamBuf) : Prop :=
  eback b' = eback b /\ egptr b' = egptr b /\
  gptr b <= gptr b' /\ gptr b' <= egptr b.

Fixpoint sum_counts (counts : list Z) : Z :=
  match counts with
  | [] => 0
  | c :: cs => c + sum_counts cs
  end.

(** The memory an [ArrayStreamBuf] owns: its array at its address. *)
Definition array_memory (b : ArrayStreamBuf.t) : Memory :=
  mkMemory (ArrayStreamBuf.this_bytes b) (ArrayStreamBuf.bytes b).

(** A run of [feed] calls, one per chunk and with the length of the chunk;
    it stops at the first call that fails. *)
Fixpoint feed_all (N : Z) (chunks : list (list Z)) (b : ArrayStreamBuf.t)
  : bool * ArrayStreamBuf.t :=
  match chunks with
  | [] => (true, b)
  | d :: rest =>
      let (ok, b') := ArrayStreamBuf.feed N d (Z.of_nat (length d)) b in
      if ok then feed_all N rest b' else (false, b')
  end.

(** ** Lemmas on the cursor *)

Ltac run := unfold bind, ret, get_area; cbn [fst snd sb loads eback gptr egptr].

Lemma in_avail_run w :
  in_avail w = ((if gptr (sb w) <? egptr (sb w)
                 then egptr (sb w) - gptr (sb w) else 0), w).
Proof. reflexivity. Qed.

Lemma in_avail_nonneg w : 0 <= fst (in_avail w).
Proof.
  rewrite in_avail_run. cbn [fst].
  destruct (gptr (sb w) <? egptr (sb w)) eqn:E; [apply Z.ltb_lt in E|]; lia.
Qed.

Lemma machine_eta w :
  mkMachine (mkStreamBuf (eback (sb w)) (gptr (sb w)) (egptr (sb w))) (loads w) = w.
Proof. destruct w as [[b c e] l]. reflexivity. Qed.

Lemma bump_loop_run mem n : forall w,
  Z.of_nat n <= egptr (sb w) - gptr (sb w) ->
  bump_loop mem n w =
  (tt, mkMachine (mkStreamBuf (eback (sb w)) (gptr (sb w) + Z.of_nat n) (egptr (sb w)))
                 (loads w ++ addrs (gptr (sb w)) n)).
Proof.
  induction n as [|n IH]; intros w Hn.
  - cbn [bump_loop addrs Z.of_nat]. unfold ret.
    rewrite Z.add_0_r, app_nil_r, machine_eta. reflexivity.
  - cbn [bump_loop]. unfold sbumpc. run.
    assert (Hlt : (gptr (sb w) <? egptr (sb w)) = true) by (apply Z.ltb_lt; lia).
    rewrite Hlt. unfold deref, gbump1. run.
    rewrite IH by (cbn [sb gptr egptr]; lia).
    cbn [sb loads eback gptr egptr addrs].
    rewrite <- app_assoc. cbn [app].
    replace (Z.of_nat (S n)) with (1 + Z.of_nat n) by lia.
    rewrite Z.add_assoc. reflexivity.
Qed.

Lemma advance_ok mem w count :
  0 <= count -> count <= egptr (sb w) - gptr (sb w) ->
  advance mem count w =
  (true, mkMachine (mkStreamBuf (eback (sb w)) (gptr (sb w) + count) (egptr (sb w)))
                   (loads w ++ addrs (gptr (sb w)) (Z.to_nat count))).
Proof.
  intros H0 Hc. unfold advance. unfold bind at 1. rewrite in_avail_run.
  destruct (gptr (sb w) <? egptr (sb w)) eqn:E.
  - replace (egptr (sb w) - gptr (sb w) <? count) with false
      by (symmetry; apply Z.ltb_ge; lia).
    run. rewrite bump_loop_run by lia. rewrite Z2Nat.id by lia. reflexivity.
  - apply Z.ltb_ge in E. assert (count = 0) by lia. subst count.
    cbn. rewrite Z.add_0_r, app_nil_r, machine_eta. reflexivity.
Qed.

Lemma advance_fail mem w count :
  fst (in_avail w) < count -> advance mem count w = (false, w).
Proof.
  intros H. unfold advance. unfold bind at 1.
  rewrite in_avail_run in *. cbn [fst] in H.
  apply Z.ltb_lt in H. rewrite H. reflexivity.
Qed.

(** ** The cursor *)

(** C9. For a cursor over a well-formed window and a [count] that does not
    exceed [remaining()], [advance(count)] returns true and moves the
    position forward by exactly [count], start and end of the window staying
    as they were; for a larger [count] it returns false and leaves the
    position and the whole window unchanged. *)
Theorem advance_within_remaining_or_unchanged
        (mem : Memory) (w : Machine) (count : Z) :
  well_formed (sb w) -> 0 <= count < size_max ->
  (count <= fst (remaining w) ->
     fst (advance mem count w) = true /\
     fst (position (snd (advance mem count w))) = fst (position w) + count /\
     gptr (sb (snd (advance mem count w))) = gptr (sb w) + count /\
     eback (sb (snd (advance mem count w))) = eback (sb w) /\
     egptr (sb (snd (advance mem count w))) = egptr (sb w)) /\
  (fst (remaining w) < count ->
     fst (advance mem count w) = false /\
     fst (position (snd (advance mem count w))) = fst (position w) /\
     sb (snd (advance mem count w)) = sb w).
Proof.
  intros (Hb & Hbg & Hge & He) Hc. unfold remaining.
  rewrite in_avail_run. cbn [fst]. split.
  - intros Hr.
    assert (Hle : count <= egptr (sb w) - gptr (sb w)).
    { destruct (gptr (sb w) <? egptr (sb w)) eqn:E; [lia|].
      apply Z.ltb_ge in E. lia. }
    rewrite advance_ok by lia. cbn [fst snd sb gptr eback egptr].
    repeat split. unfold position. run. unfold wrap64, size_max in *.
    rewrite !Z.mod_small by lia. lia.
  - intros Hr. rewrite advance_fail by (rewrite in_avail_run; exact Hr).
    cbn [fst snd]. repeat split.
Qed.

Lemma advance_within_remaining_or_unchanged_witness :
  let mem := mkMemory 4096 (bytes_of_string "Host: example.com") in
  (fst (advance mem 5 (fresh 4096 17)) = true /\
   fst (position (snd (advance mem 5 (fresh 4096 17)))) = 5) /\
  (fst (advance mem 18 (fresh 4096 17)) = false /\
   sb (snd (advance mem 18 (fresh 4096 17))) = sb (fresh 4096 17)).
Proof.
  intro mem.
  assert (Hwf : well_formed (sb (fresh 4096 17))).
  { unfold well_formed, size_max. cbn. lia. }
  split.
  - destruct (advance_within_remaining_or_unchanged mem (fresh 4096 17) 5 Hwf)
      as [H _]; [unfold size_max; lia|].
    destruct H as (H1 & H2 & _); [cbn; lia|]. split; [exact H1|exact H2].
  - destruct (advance_within_remaining_or_unchanged mem (fresh 4096 17) 18 Hwf)
      as [_ H]; [unfold size_max; lia|].
    destruct H as (H1 & _ & H3); [cbn; lia|]. split; [exact H1|exact H3].
Defined.

Lemma advance_zero mem w : advance mem 0 w = (true, w).
Proof.
  unfold advance. unfold bind at 1. rewrite in_avail_run.
  destruct (gptr (sb w) <? egptr (sb w)) eqn:E.
  - apply Z.ltb_lt in E.
    replace (egptr (sb w) - gptr (sb w) <? 0) with false
      by (symmetry; apply Z.ltb_ge; lia).
    reflexivity.
  - reflexivity.
Qed.

Lemma next_empty_window mem w :
  egptr (sb w) <= gptr (sb w) -> next mem w = (Eof, w).
Proof.
  intros H. unfold next. unfold bind at 1. rewrite in_avail_run.
  replace (gptr (sb w) <? egptr (sb w)) with false
    by (symmetry; apply Z.ltb_ge; lia).
  reflexivity.
Qed.

(** With at least one byte left, [next] loads from [gptr + 1], whether or
    not that address is below [egptr]. *)
Lemma next_nonempty_window mem w :
  gptr (sb w) < egptr (sb w) ->
  next mem w = (char_to_int (load mem (gptr (sb w) + 1)),
                mkMachine (sb w) (loads w ++ [gptr (sb w) + 1])).
Proof.
  intros H. unfold next. unfold bind at 1. rewrite in_avail_run.
  replace (gptr (sb w) <? egptr (sb w)) with true
    by (symmetry; apply Z.ltb_lt; lia).
  replace (egptr (sb w) - gptr (sb w) <? 1) with false
    by (symmetry; apply Z.ltb_ge; lia).
  unfold snext. run.
  replace (gptr (sb w) =? egptr (sb w)) with false
    by (symmetry; apply Z.eqb_neq; lia).
  reflexivity.
Qed.

Lemma next_keeps_window mem w : sb (snd (next mem w)) = sb w.
Proof.
  destruct (Z_lt_le_dec (gptr (sb w)) (egptr (sb w))) as [H|H].
  - rewrite next_nonempty_window by exact H. reflexivity.
  - rewrite next_empty_window by exact H. reflexivity.
Qed.

(** C3. On the one-byte window over the first byte of "AB" the current
    position is [end - 1]; [next()] does not return the EOF sentinel there: it
    loads the byte at [end], outside of the window, and returns it (66, the
    'B'). The position is not advanced. *)
Theorem next_at_last_byte_returns_byte_at_end :
  gptr (sb (fresh 4096 1)) = egptr (sb (fresh 4096 1)) - 1 /\
  fst (next (mkMemory 4096 [65; 66]) (fresh 4096 1)) = 66 /\
  fst (next (mkMemory 4096 [65; 66]) (fresh 4096 1)) <> Eof /\
  loads (snd (next (mkMemory 4096 [65; 66]) (fresh 4096 1)))
    = [egptr (sb (fresh 4096 1))] /\
  sb (snd (next (mkMemory 4096 [65; 66]) (fresh 4096 1))) = sb (fresh 4096 1).
Proof.
  rewrite next_nonempty_window by (cbn; lia).
  cbn. repeat split; try reflexivity. unfold Eof. discriminate.
Qed.

(** ** Matchers: what a call does *)

Lemma load_range_run mem n : forall p w,
  load_range mem p n w =
  (map (load mem) (addrs p n), mkMachine (sb w) (loads w ++ addrs p n)).
Proof.
  induction n as [|n IH]; intros p w.
  - cbn. unfold ret. rewrite app_nil_r. destruct w; reflexivity.
  - cbn [load_range addrs map]. unfold bind at 1. unfold deref.
    unfold bind at 1. rewrite IH. cbn [sb loads]. unfold ret.
    rewrite <- app_assoc. reflexivity.
Qed.

Lemma eof_run w :
  eof w = ((if gptr (sb w) <? egptr (sb w)
            then egptr (sb w) - gptr (sb w) else 0) =? 0, w).
Proof. reflexivity. Qed.

Lemma eof_false w : gptr (sb w) < egptr (sb w) -> eof w = (false, w).
Proof.
  intros H. rewrite eof_run.
  replace (gptr (sb w) <? egptr (sb w)) with true
    by (symmetry; apply Z.ltb_lt; lia).
  replace (egptr (sb w) - gptr (sb w) =? 0) with false
    by (symmetry; apply Z.eqb_neq; lia).
  reflexivity.
Qed.

Lemma eof_true w : egptr (sb w) <= gptr (sb w) -> eof w = (true, w).
Proof.
  intros H. rewrite eof_run.
  replace (gptr (sb w) <? egptr (sb w)) with false
    by (symmetry; apply Z.ltb_ge; lia).
  reflexivity.
Qed.

Lemma current_run mem w :
  gptr (sb w) < egptr (sb w) ->
  current mem w = (int_to_char (load mem (gptr (sb w))),
                   mkMachine (sb w) (loads w ++ [gptr (sb w)])).
Proof.
  intros H. unfold current, sgetc. run.
  replace (gptr (sb w) <? egptr (sb w)) with true
    by (symmetry; apply Z.ltb_lt; lia).
  reflexivity.
Qed.

Lemma advance_one mem w :
  gptr (sb w) < egptr (sb w) ->
  advance mem 1 w =
  (true, mkMachine (mkStreamBuf (eback (sb w)) (gptr (sb w) + 1) (egptr (sb w)))
                   (loads w ++ [gptr (sb w)])).
Proof. intros H. rewrite advance_ok by lia. reflexivity. Qed.

(** What [match_literal] does away from EOF. The comparison is the one of
    [find] on the one target [c]: [c] against the folded current byte for
    [Sensitive], the folded [c] against the current byte for [Insensitive]. *)
Lemma match_literal_run mem c cs w :
  gptr (sb w) < egptr (sb w) ->
  match_literal mem c cs w =
  if find cs [c] (int_to_char (load mem (gptr (sb w))))
  then (true, mkMachine (mkStreamBuf (eback (sb w)) (gptr (sb w) + 1) (egptr (sb w)))
                        (loads w ++ [gptr (sb w); gptr (sb w)]))
  else (false, mkMachine (sb w) (loads w ++ [gptr (sb w)])).
Proof.
  intros H. unfold match_literal. unfold bind at 1. rewrite eof_false by exact H.
  cbn [find].
  destruct cs; cbn [is_Sensitive is_Insensitive]; run;
    rewrite current_run by exact H;
    match goal with |- context [if ?b then _ else _] => destruct b end;
    run; try reflexivity;
    rewrite advance_one by exact H; cbn [sb loads eback gptr egptr];
    rewrite <- app_assoc; reflexivity.
Qed.

Lemma match_literal_at_eof mem c cs w :
  egptr (sb w) <= gptr (sb w) -> match_literal mem c cs w = (false, w).
Proof.
  intros H. unfold match_literal. unfold bind at 1. rewrite eof_true by exact H.
  reflexivity.
Qed.

(** C1. With the buffer holding "Host: example.com\r\n" and the cursor at
    position 0, [match_literal('H', cursor, Insensitive)] returns false and
    leaves the cursor at position 0: the argument is folded to 'h' and
    compared with the current byte 'H' as it stands, although the two are
    equal under case folding of both sides. *)
Theorem match_literal_insensitive_H_rejects_H :
  equal_under Insensitive 72
    (load (mkMemory 4096 (bytes_of_string "Host: example.com" ++ [13; 10])) 4096)
    = true /\
  fst (match_literal
         (mkMemory 4096 (bytes_of_string "Host: example.com" ++ [13; 10]))
         72 Insensitive (fresh 4096 19)) = false /\
  fst (position
         (snd (match_literal
                 (mkMemory 4096 (bytes_of_string "Host: example.com" ++ [13; 10]))
                 72 Insensitive (fresh 4096 19)))) = 0.
Proof.
  rewrite match_literal_run by (cbn; lia).
  repeat split; vm_compute; reflexivity.
Qed.

(** C10. [match_raw(bytes, 0, cursor)] returns true for every cursor, also
    one at EOF; it consumes nothing and loads no byte. *)
Theorem match_raw_zero_length_matches (mem : Memory) (buf : list Z) (w : Machine) :
  match_raw mem buf 0 w = (true, w).
Proof.
  unfold match_raw, remaining. unfold bind at 1. rewrite in_avail_run.
  pose proof (in_avail_nonneg w) as Hn. rewrite in_avail_run in Hn. cbn [fst] in Hn.
  apply Z.ltb_ge in Hn. rewrite Hn.
  unfold offset, curptr, memcmp. run. cbn [Z.to_nat load_range firstn compare_bytes].
  unfold ret. cbn [compare_bytes Z.eqb]. rewrite advance_zero. reflexivity.
Qed.

(** ** Matchers: the bytes they load *)

Lemma addrs_bounds n : forall p, Forall (fun a => p <= a < p + Z.of_nat n) (addrs p n).
Proof.
  induction n as [|n IH]; intros p; cbn [addrs]; constructor.
  - lia.
  - eapply Forall_impl; [|apply IH]. cbn beta. intros a Ha. lia.
Qed.

Lemma addrs_in_window b n :
  gptr b + Z.of_nat n <= egptr b -> Forall (in_window b) (addrs (gptr b) n).
Proof.
  intros H. eapply Forall_impl; [|apply addrs_bounds].
  cbn beta. unfold in_window. intros a Ha. lia.
Qed.

Lemma match_raw_loads_in_window mem buf len w :
  0 <= len ->
  exists l, loads (snd (match_raw mem buf len w)) = loads w ++ l /\
            Forall (in_window (sb w)) l.
Proof.
  intros Hlen. unfold match_raw, remaining. unfold bind at 1. rewrite in_avail_run.
  destruct (_ <? len) eqn:Hr.
  - exists []. rewrite app_nil_r. split; [reflexivity|constructor].
  - apply Z.ltb_ge in Hr.
    destruct (Z.eq_dec len 0) as [->|Hpos].
    { unfold offset, curptr, memcmp. run. rewrite load_range_run. run.
      cbn [Z.to_nat addrs map firstn compare_bytes Z.eqb].
      rewrite advance_zero. cbn [snd loads].
      exists []. split; [reflexivity|constructor]. }
    assert (Hle : len <= egptr (sb w) - gptr (sb w)).
    { destruct (gptr (sb w) <? egptr (sb w)) eqn:E; [lia|].
      apply Z.ltb_ge in E. lia. }
    assert (Hin : Forall (in_window (sb w)) (addrs (gptr (sb w)) (Z.to_nat len))).
    { apply addrs_in_window. lia. }
    unfold offset, curptr, memcmp. run. rewrite load_range_run. run.
    destruct (_ =? 0).
    + rewrite advance_ok by (cbn [sb gptr egptr]; lia).
      cbn [snd loads sb gptr]. rewrite <- app_assoc. eexists. split; [reflexivity|].
      apply Forall_app. split; exact Hin.
    + cbn [snd loads]. eexists. split; [reflexivity|exact Hin].
Qed.

Lemma match_literal_loads_in_window mem c cs w :
  exists l, loads (snd (match_literal mem c cs w)) = loads w ++ l /\
            Forall (in_window (sb w)) l.
Proof.
  destruct (Z_lt_le_dec (gptr (sb w)) (egptr (sb w))) as [H|H].
  - assert (Hin : in_window (sb w) (gptr (sb w))) by (unfold in_window; lia).
    rewrite match_literal_run by exact H.
    destruct (find _ _ _); cbn [snd loads]; eexists; (split; [reflexivity|]);
      repeat (first [exact Hin | apply Forall_cons | apply Forall_nil]).
  - rewrite match_literal_at_eof by exact H.
    exists []. rewrite app_nil_r. split; [reflexivity|constructor].
Qed.

Lemma scan_outcome_at_eof mem chars cs w :
  egptr (sb w) <= gptr (sb w) ->
  scan_outcome mem chars cs w (Some false, w).
Proof.
  intros H. exists false. cbn [fst snd].
  split; [reflexivity|]. split; [reflexivity|]. split; [reflexivity|].
  split; [lia|]. split; [intros a Ha; lia|]. split; [discriminate|].
  split; [intros _; split; lia|].
  exists []. rewrite app_nil_r. split; [reflexivity|constructor].
Qed.

Lemma until_loop_S mem k chars cs :
  until_loop mem (S k) chars cs =
  (e <- eof ;;
   if e then ret (Some false)
   else
     c <- current mem ;;
     if find cs chars c then ret (Some true)
     else (advance mem 1 ;; until_loop mem k chars cs)).
Proof. reflexivity. Qed.

(** The loop of [match_until], run with one round more than the bytes left. *)
Lemma until_loop_outcome mem chars cs k : forall w,
  egptr (sb w) - gptr (sb w) <= Z.of_nat k ->
  scan_outcome mem chars cs w (until_loop mem (S k) chars cs w).
Proof.
  induction k as [|k IH]; intros w Hk;
    rewrite until_loop_S; unfold bind at 1;
    (destruct (Z_lt_le_dec (gptr (sb w)) (egptr (sb w))) as [H|H];
     [rewrite eof_false by exact H | rewrite eof_true by exact H]).
  - cbn [Z.of_nat] in Hk. lia.
  - apply scan_outcome_at_eof. exact H.
  - assert (Hin : in_window (sb w) (gptr (sb w))) by (unfold in_window; lia).
    unfold bind at 1. rewrite current_run by exact H. fold (char_at mem (gptr (sb w))).
    destruct (find cs chars (char_at mem (gptr (sb w)))) eqn:Hf.
    + exists true. unfold ret. cbn [fst snd sb loads].
      split; [reflexivity|]. split; [reflexivity|]. split; [reflexivity|].
      split; [lia|]. split; [intros a Ha; lia|].
      split; [intros _; split; [lia|exact Hf]|]. split; [discriminate|].
      exists [gptr (sb w)]. split; [reflexivity|].
      apply Forall_cons; [exact Hin|apply Forall_nil].
    + unfold bind at 1. rewrite advance_one by exact H.
      cbn [sb loads eback gptr egptr].
      match goal with
      | |- scan_outcome _ _ _ _ (until_loop _ _ _ _ ?m) => set (w2 := m)
      end.
      destruct (IH w2) as (b & Hres & Hb & He & Hg & Hpass & Ht & Hfl & l & Hl & Hlw).
      { subst w2. cbn [sb gptr egptr loads]. lia. }
      subst w2. cbn [sb eback gptr egptr loads] in *.
      exists b.
      split; [exact Hres|]. split; [exact Hb|]. split; [exact He|].
      split; [lia|].
      split.
      { intros a Ha. destruct (Z.eq_dec a (gptr (sb w))) as [->|Hne];
          [exact Hf|apply Hpass; lia]. }
      split; [exact Ht|].
      split.
      { intros Hbf. destruct (Hfl Hbf) as [Hfl1 Hfl2].
        split; [exact Hfl1|]. intros _. apply Hfl2. lia. }
      exists ([gptr (sb w)] ++ [gptr (sb w)] ++ l). split.
      * rewrite Hl. rewrite <- !app_assoc. reflexivity.
      * apply Forall_cons; [exact Hin|]. apply Forall_cons; [exact Hin|].
        eapply Forall_impl; [|exact Hlw]. intros a Ha.
        unfold in_window in *. cbn [gptr egptr] in Ha. lia.
  - apply scan_outcome_at_eof. exact H.
Qed.

(** [match_until] always comes to an answer, and the answer is that of the
    scan: the fuel it is run with is never used up. *)
Lemma match_until_outcome mem chars cs w :
  scan_outcome mem chars cs w (match_until mem chars cs w).
Proof.
  unfold match_until, remaining. unfold bind at 1. rewrite in_avail_run.
  unfold match_until_fuel. unfold bind at 1.
  destruct (Z_lt_le_dec (gptr (sb w)) (egptr (sb w))) as [H|H].
  - rewrite eof_false by exact H. apply until_loop_outcome.
    replace (gptr (sb w) <? egptr (sb w)) with true
      by (symmetry; apply Z.ltb_lt; lia).
    rewrite Z2Nat.id by lia. lia.
  - rewrite eof_true by exact H. apply scan_outcome_at_eof. exact H.
Qed.

(** C6. On the window over "Hi", [match_until('H', cursor, Insensitive)]
    passes over the 'H' at position 0, although that byte equals the target
    under the insensitive policy (case folding of both sides): [find] folds
    only the target and compares 'h' with 'H'. The scan reaches EOF, returns
    false and leaves the cursor at position 2. *)
Theorem match_until_insensitive_H_passes_over_H :
  in_window (sb (fresh 4096 2)) 4096 /\
  equal_under Insensitive 72 (char_at (mkMemory 4096 [72; 105]) 4096) = true /\
  fst (match_until (mkMemory 4096 [72; 105]) [72] Insensitive (fresh 4096 2))
    = Some false /\
  fst (position
         (snd (match_until (mkMemory 4096 [72; 105]) [72] Insensitive
                           (fresh 4096 2)))) = 2 /\
  fst (eof (snd (match_until (mkMemory 4096 [72; 105]) [72] Insensitive
                             (fresh 4096 2)))) = true.
Proof.
  split; [unfold in_window; cbn; lia|].
  repeat split; vm_compute; reflexivity.
Qed.

(** ** [match_double] *)

Lemma match_double_run mem strtod val w :
  match_double mem strtod val w =
  let r := strtod (bytes_from mem (gptr (sb w))) in
  let w1 := mkMachine (sb w) (loads w ++ addrs (gptr (sb w)) (sd_inspected r)) in
  if (sd_consumed r =? 0)%nat
  then ((false, sd_value r), w1)
  else ((true, sd_value r), snd (advance mem (Z.of_nat (sd_consumed r)) w1)).
Proof.
  unfold match_double, offset, curptr. run. rewrite load_range_run. run.
  destruct (sd_consumed (strtod (bytes_from mem (gptr (sb w))))) as [|n] eqn:E.
  - cbn [Z.of_nat Nat.eqb]. rewrite Z.add_0_r, Z.eqb_refl. reflexivity.
  - replace (gptr (sb w) + Z.of_nat (S n) =? gptr (sb w)) with false
      by (symmetry; apply Z.eqb_neq; lia).
    cbn [Nat.eqb sb gptr].
    replace (gptr (sb w) + Z.of_nat (S n) - gptr (sb w)) with (Z.of_nat (S n)) by lia.
    destruct (advance mem (Z.of_nat (S n)) _). reflexivity.
Qed.




(** C4. On the two-byte window over the first two bytes of "123",
    [match_double] hands the raw pointer to [strtod], which converts all
    three digits: the byte at the window's end is loaded, an address that is
    not in the window. The call returns true with the value 123, and the
    cursor has not moved, since [advance(3)] exceeds the two bytes that
    remain. *)
Theorem match_double_loads_byte_at_window_end :
  egptr (sb (fresh 4096 2)) = 4098 /\
  ~ in_window (sb (fresh 4096 2)) 4098 /\
  In 4098 (loads (snd (match_double (mkMemory 4096 (bytes_of_string "123"))
                                    strtod_decimal 0 (fresh 4096 2)))) /\
  fst (match_double (mkMemory 4096 (bytes_of_string "123")) strtod_decimal 0
                    (fresh 4096 2)) = (true, 123 # 1) /\
  sb (snd (match_double (mkMemory 4096 (bytes_of_string "123")) strtod_decimal 0
                        (fresh 4096 2))) = sb (fresh 4096 2).
Proof.
  split; [reflexivity|]. split; [unfold in_window; cbn; lia|].
  split; [vm_compute; tauto|]. split; vm_compute; reflexivity.
Qed.

(** ** The [Revert] guard *)

Lemma Revert_new_run w :
  Revert_new w =
  (mkRevert (eback (sb w)) (gptr (sb w)) (egptr (sb w)) true, w).
Proof. reflexivity. Qed.

(** Whatever runs between construction and destruction of an active guard,
    the window afterwards is the one the guard has seen. *)
Lemma Revert_delete_active g w :
  active g = true ->
  sb (snd (Revert_delete g w)) = mkStreamBuf (r_eback g) (r_gptr g) (r_egptr g).
Proof. intros H. unfold Revert_delete. rewrite H. reflexivity. Qed.

Lemma Revert_delete_ignored g w : Revert_delete (ignore g) w = (tt, w).
Proof. reflexivity. Qed.

Lemma streambuf_eta b : mkStreamBuf (eback b) (gptr b) (egptr b) = b.
Proof. destruct b; reflexivity. Qed.

(** C5. A guard that is destroyed while active puts the window (start,
    current, end) back to what it was when the guard was made, whatever
    advances were made in between; a guard on which [ignore()] was called
    leaves the window as the advances left it; and when an inner guard, made
    after some advances, is committed and the outer one is then destroyed
    while active, the window is the one of the outer guard's construction. *)
Theorem revert_guard_rollback_commit_and_nesting
        (mem : Memory) (w : Machine) (counts counts' : list Z) :
  sb (snd ((g <- Revert_new ;;
            advances mem counts ;;
            Revert_delete g) w)) = sb w /\
  sb (snd ((g <- Revert_new ;;
            advances mem counts ;;
            Revert_delete (ignore g)) w)) = sb (snd (advances mem counts w)) /\
  sb (snd ((outer <- Revert_new ;;
            advances mem counts ;;
            inner <- Revert_new ;;
            advances mem counts' ;;
            Revert_delete (ignore inner) ;;
            Revert_delete outer) w)) = sb w.
Proof.
  repeat split.
  - unfold bind. rewrite Revert_new_run.
    destruct (advances mem counts w) as [u w1].
    rewrite Revert_delete_active by reflexivity. apply streambuf_eta.
  - unfold bind. rewrite Revert_new_run.
    destruct (advances mem counts w) as [u w1]. reflexivity.
  - unfold bind. rewrite Revert_new_run.
    destruct (advances mem counts w) as [u w1]. rewrite Revert_new_run.
    destruct (advances mem counts' w1) as [u' w2].
    rewrite Revert_delete_ignored.
    rewrite Revert_delete_active by reflexivity. apply streambuf_eta.
Qed.

(** The advances between are real ones: on a window of 17 bytes the guard
    sees position 0, the advances by 3 and by 2 reach position 5, and the
    rollback is back at 0. *)
Example revert_guard_undoes_two_advances :
  fst (position
         (snd (advances (mkMemory 4096 (bytes_of_string "Host: example.com"))
                        [3; 2] (fresh 4096 17)))) = 5 /\
  fst (position
         (snd ((g <- Revert_new ;;
                advances (mkMemory 4096 (bytes_of_string "Host: example.com")) [3; 2] ;;
                Revert_delete g) (fresh 4096 17)))) = 0.
Proof. split; vm_compute; reflexivity. Qed.

(** ** [ArrayStreamBuf::feed] *)

Lemma wrap64_small z : 0 <= z < size_max -> wrap64 z = z.
Proof. intros H. unfold wrap64. apply Z.mod_small. exact H. Qed.

Lemma memcpy_parts (dst src : list Z) (off len : Z) :
  0 <= off -> 0 <= len -> off + len <= Z.of_nat (length dst) ->
  len <= Z.of_nat (length src) ->
  let dst' := ArrayStreamBuf.memcpy dst off src len in
  length dst' = length dst /\
  firstn (Z.to_nat off) dst' = firstn (Z.to_nat off) dst /\
  firstn (Z.to_nat len) (skipn (Z.to_nat off) dst') = firstn (Z.to_nat len) src /\
  skipn (Z.to_nat (off + len)) dst' = skipn (Z.to_nat (off + len)) dst.
Proof.
  intros Hoff Hlen Hdst Hsrc. cbv zeta. unfold ArrayStreamBuf.memcpy.
  assert (L1 : length (firstn (Z.to_nat off) dst) = Z.to_nat off).
  { rewrite length_firstn. lia. }
  assert (L2 : length (firstn (Z.to_nat len) src) = Z.to_nat len).
  { rewrite length_firstn. lia. }
  repeat split.
  - rewrite !length_app, L1, L2, length_skipn. lia.
  - rewrite firstn_app, L1, Nat.sub_diag. cbn [firstn].
    rewrite app_nil_r. apply firstn_all2. lia.
  - rewrite skipn_app, L1, Nat.sub_diag. cbn [skipn].
    rewrite skipn_all2 by lia. cbn [app].
    rewrite firstn_app, L2, Nat.sub_diag. cbn [firstn].
    rewrite app_nil_r. apply firstn_all2. lia.
  - rewrite app_assoc. rewrite skipn_app.
    rewrite skipn_all2 by (rewrite length_app; lia). cbn [app].
    rewrite length_app, L1, L2.
    replace (Z.to_nat (off + len) - (Z.to_nat off + Z.to_nat len))%nat with O by lia.
    reflexivity.
Qed.

(** C7. For an appendable buffer of capacity [N] holding [size] bytes,
    [feed(data, len)] fails and returns the buffer as it was whenever
    [size + len >= N]; so it fails when [size + len = N] and succeeds when
    [size + len = N - 1]. On success the [len] bytes of [data] lie in the
    array from offset [size] on, the rest of the array is as before, [size]
    has grown by [len], and the window has its start at the array, its
    current pointer at start + the previous [size] and its end at
    start + [size] + [len]. *)
Theorem feed_strict_capacity_bound
        (N : Z) (data : list Z) (len : Z) (b : ArrayStreamBuf.t) :
  array_ok N b ->
  0 <= len <= ptrdiff_max -> len <= Z.of_nat (length data) ->
  (N <= ArrayStreamBuf.size b + len ->
     ArrayStreamBuf.feed N data len b = (false, b)) /\
  (ArrayStreamBuf.size b + len = N ->
     fst (ArrayStreamBuf.feed N data len b) = false) /\
  (ArrayStreamBuf.size b + len = N - 1 ->
     fst (ArrayStreamBuf.feed N data len b) = true) /\
  (ArrayStreamBuf.size b + len < N ->
     fst (ArrayStreamBuf.feed N data len b) = true /\
     ArrayStreamBuf.size (snd (ArrayStreamBuf.feed N data len b))
       = ArrayStreamBuf.size b + len /\
     ArrayStreamBuf.area (snd (ArrayStreamBuf.feed N data len b))
       = mkStreamBuf (ArrayStreamBuf.this_bytes b)
                     (ArrayStreamBuf.this_bytes b + ArrayStreamBuf.size b)
                     (ArrayStreamBuf.this_bytes b + ArrayStreamBuf.size b + len) /\
     firstn (Z.to_nat len)
            (skipn (Z.to_nat (ArrayStreamBuf.size b))
                   (ArrayStreamBuf.bytes (snd (ArrayStreamBuf.feed N data len b))))
       = firstn (Z.to_nat len) data /\
     firstn (Z.to_nat (ArrayStreamBuf.size b))
            (ArrayStreamBuf.bytes (snd (ArrayStreamBuf.feed N data len b)))
       = firstn (Z.to_nat (ArrayStreamBuf.size b)) (ArrayStreamBuf.bytes b) /\
     skipn (Z.to_nat (ArrayStreamBuf.size b + len))
           (ArrayStreamBuf.bytes (snd (ArrayStreamBuf.feed N data len b)))
       = skipn (Z.to_nat (ArrayStreamBuf.size b + len)) (ArrayStreamBuf.bytes b) /\
     array_ok N (snd (ArrayStreamBuf.feed N data len b))).
Proof.
  intros (Hlen & Hsize & HN) Hl Hdata.
  assert (Hw : wrap64 (ArrayStreamBuf.size b + len) = ArrayStreamBuf.size b + len).
  { apply wrap64_small. unfold size_max, ptrdiff_max in *. lia. }
  assert (Hfail : N <= ArrayStreamBuf.size b + len ->
                  ArrayStreamBuf.feed N data len b = (false, b)).
  { intros H. unfold ArrayStreamBuf.feed. rewrite Hw.
    replace (N <=? ArrayStreamBuf.size b + len) with true
      by (symmetry; apply Z.leb_le; lia).
    reflexivity. }
  assert (Hok : ArrayStreamBuf.size b + len < N ->
                ArrayStreamBuf.feed N data len b =
                (true,
                 ArrayStreamBuf.mk
                   (ArrayStreamBuf.this_bytes b)
                   (ArrayStreamBuf.memcpy (ArrayStreamBuf.bytes b)
                                          (ArrayStreamBuf.size b) data len)
                   (ArrayStreamBuf.size b + len)
                   (mkStreamBuf (ArrayStreamBuf.this_bytes b)
                      (ArrayStreamBuf.this_bytes b + ArrayStreamBuf.size b)
                      (ArrayStreamBuf.this_bytes b + ArrayStreamBuf.size b + len)))).
  { intros H. unfold ArrayStreamBuf.feed. rewrite Hw.
    replace (N <=? ArrayStreamBuf.size b + len) with false
      by (symmetry; apply Z.leb_gt; lia).
    reflexivity. }
  split; [exact Hfail|]. split; [|split].
  - intros H. rewrite Hfail by lia. reflexivity.
  - intros H. rewrite Hok by lia. reflexivity.
  - intros H. rewrite Hok by exact H.
    cbn [fst snd ArrayStreamBuf.size ArrayStreamBuf.area ArrayStreamBuf.bytes].
    destruct (memcpy_parts (ArrayStreamBuf.bytes b) data (ArrayStreamBuf.size b) len)
      as (M1 & M2 & M3 & M4); try lia.
    repeat split; cbn [ArrayStreamBuf.bytes ArrayStreamBuf.size];
      try assumption; try lia.
Qed.

Lemma feed_strict_capacity_bound_witness :
  (fst (ArrayStreamBuf.feed 8 [1; 2; 3] 3
          (ArrayStreamBuf.of_array 8 4096 [9; 9; 9; 9; 9])) = false) /\
  (fst (ArrayStreamBuf.feed 8 [1; 2; 3] 2
          (ArrayStreamBuf.of_array 8 4096 [9; 9; 9; 9; 9])) = true /\
   ArrayStreamBuf.area
     (snd (ArrayStreamBuf.feed 8 [1; 2; 3] 2
             (ArrayStreamBuf.of_array 8 4096 [9; 9; 9; 9; 9])))
     = mkStreamBuf 4096 (4096 + 5) (4096 + 5 + 2)).
Proof.
  assert (Hok : array_ok 8 (ArrayStreamBuf.of_array 8 4096 [9; 9; 9; 9; 9])).
  { unfold array_ok, ptrdiff_max. split; [reflexivity|cbn; lia]. }
  split.
  - destruct (feed_strict_capacity_bound 8 [1; 2; 3] 3 _ Hok) as (_ & H & _).
    + unfold ptrdiff_max. lia.
    + cbn. lia.
    + apply H. reflexivity.
  - destruct (feed_strict_capacity_bound 8 [1; 2; 3] 2 _ Hok) as (_ & _ & _ & H).
    + unfold ptrdiff_max. lia.
    + cbn. lia.
    + destruct H as (H1 & _ & H3 & _); [cbn; lia|]. split; [exact H1|exact H3].
Defined.

(** ** [NetworkStream]: writes and growth *)

Lemma store_length v : forall i c, length (NetworkStream.store v i c) = length v.
Proof.
  induction v as [|x v IH]; intros [|i] c; cbn; try reflexivity.
  rewrite IH. reflexivity.
Qed.

Lemma store_firstn v : forall i c,
  (i < length v)%nat ->
  firstn (S i) (NetworkStream.store v i c) = firstn i v ++ [c].
Proof.
  induction v as [|x v IH]; intros [|i] c Hi; cbn [length] in Hi; try lia.
  - reflexivity.
  - cbn [NetworkStream.store]. rewrite !firstn_cons. rewrite IH by lia. reflexivity.
Qed.

Lemma resize_length v n :
  0 <= n -> Z.of_nat (length (NetworkStream.resize v n)) = n.
Proof.
  intros Hn. unfold NetworkStream.resize.
  rewrite length_app, length_firstn, repeat_length. lia.
Qed.

Lemma resize_grows v n :
  Z.of_nat (length v) <= n ->
  NetworkStream.resize v n = v ++ repeat 0 (Z.to_nat n - length v).
Proof.
  intros Hn. unfold NetworkStream.resize. rewrite firstn_all2 by lia. reflexivity.
Qed.

Lemma create_ok cap maxSize :
  1 <= cap <= maxSize -> maxSize <= ptrdiff_max ->
  stream_ok (NetworkStream.create cap maxSize) /\
  NetworkStream.pptr (NetworkStream.create cap maxSize) = 0 /\
  NetworkStream.capacity (NetworkStream.create cap maxSize) = cap /\
  NetworkStream.maxSize_ (NetworkStream.create cap maxSize) = maxSize.
Proof.
  intros Hc Hm. unfold NetworkStream.create, NetworkStream.reserve.
  cbn [NetworkStream.maxSize_ NetworkStream.data_ length Z.of_nat].
  replace (maxSize <? cap) with false by (symmetry; apply Z.ltb_ge; lia).
  unfold stream_ok, NetworkStream.capacity.
  cbn [NetworkStream.maxSize_ NetworkStream.data_ NetworkStream.pptr
       NetworkStream.epptr].
  rewrite resize_length by lia. repeat split; lia.
Qed.

(** One write into a stream that has not yet taken [maxSize_] bytes. *)
Lemma sputc_below_maxSize c s :
  stream_ok s -> is_byte c -> NetworkStream.pptr s < NetworkStream.maxSize_ s ->
  fst (NetworkStream.sputc c s) = c /\
  stream_ok (snd (NetworkStream.sputc c s)) /\
  NetworkStream.maxSize_ (snd (NetworkStream.sputc c s)) = NetworkStream.maxSize_ s /\
  NetworkStream.pptr (snd (NetworkStream.sputc c s)) = NetworkStream.pptr s + 1 /\
  fst (NetworkStream.buffer (snd (NetworkStream.sputc c s)))
    = fst (NetworkStream.buffer s) ++ [c] /\
  NetworkStream.capacity (snd (NetworkStream.sputc c s))
    = (if NetworkStream.pptr s <? NetworkStream.capacity s
       then NetworkStream.capacity s
       else Z.min (2 * NetworkStream.capacity s) (NetworkStream.maxSize_ s)).
Proof.
  intros (Hp & He & Hcap & Hmax) Hc Hlt.
  destruct s as [mx v p e]. unfold NetworkStream.capacity in *.
  cbn [NetworkStream.maxSize_ NetworkStream.data_ NetworkStream.pptr
       NetworkStream.epptr] in *.
  unfold NetworkStream.sputc, NetworkStream.buffer, stream_ok, NetworkStream.capacity.
  cbn [NetworkStream.maxSize_ NetworkStream.data_ NetworkStream.pptr
       NetworkStream.epptr].
  subst e.
  destruct (p <? Z.of_nat (length v)) eqn:Hroom.
  - apply Z.ltb_lt in Hroom.
    cbn [fst snd NetworkStream.maxSize_ NetworkStream.data_ NetworkStream.pptr
         NetworkStream.epptr].
    rewrite store_length.
    replace (Z.to_nat (p + 1)) with (S (Z.to_nat p)) by lia.
    rewrite store_firstn by lia.
    repeat split; lia.
  - apply Z.ltb_ge in Hroom. assert (p = Z.of_nat (length v)) by lia. subst p.
    unfold NetworkStream.overflow.
    replace (c =? Eof) with false
      by (symmetry; apply Z.eqb_neq; unfold is_byte, Eof in *; lia).
    cbn [negb NetworkStream.maxSize_ NetworkStream.data_].
    replace (Z.of_nat (length v) <? mx) with true by (symmetry; apply Z.ltb_lt; lia).
    rewrite wrap64_small by (unfold size_max, ptrdiff_max in *; lia).
    unfold NetworkStream.reserve.
    cbn [fst snd NetworkStream.maxSize_ NetworkStream.data_ NetworkStream.pptr
         NetworkStream.epptr].
    set (n := if mx <? Z.of_nat (length v) * 2 then mx else Z.of_nat (length v) * 2).
    assert (Hn : n = Z.min (2 * Z.of_nat (length v)) mx).
    { subst n. destruct (mx <? Z.of_nat (length v) * 2) eqn:E;
        [apply Z.ltb_lt in E|apply Z.ltb_ge in E]; lia. }
    assert (Hgrow : Z.of_nat (length v) < n) by lia.
    rewrite store_length, resize_length by lia.
    rewrite (resize_grows v n) by lia.
    unfold int_to_char. rewrite Z.mod_small by exact Hc.
    replace (Z.to_nat (Z.of_nat (length v) + 1)) with (S (Z.to_nat (Z.of_nat (length v))))
      by lia.
    rewrite store_firstn by (rewrite length_app, repeat_length; lia).
    rewrite Nat2Z.id, firstn_app, Nat.sub_diag, !firstn_all. cbn [firstn].
    rewrite app_nil_r.
    repeat split; lia.
Qed.

(** One write into a stream that holds [maxSize_] bytes. *)
Lemma sputc_at_maxSize c s :
  stream_ok s -> is_byte c -> NetworkStream.pptr s = NetworkStream.maxSize_ s ->
  NetworkStream.sputc c s = (Eof, s).
Proof.
  intros (Hp & He & Hcap & Hmax) Hc Hfull.
  unfold NetworkStream.sputc, NetworkStream.overflow.
  unfold NetworkStream.capacity in *.
  replace (NetworkStream.pptr s <? NetworkStream.epptr s) with false
    by (symmetry; apply Z.ltb_ge; lia).
  replace (c =? Eof) with false
    by (symmetry; apply Z.eqb_neq; unfold is_byte, Eof in *; lia).
  cbn [negb].
  replace (Z.of_nat (length (NetworkStream.data_ s)) <? NetworkStream.maxSize_ s)
    with false by (symmetry; apply Z.ltb_ge; lia).
  reflexivity.
Qed.

Lemma write_all_below_maxSize cs : forall s,
  stream_ok s -> Forall is_byte cs ->
  NetworkStream.pptr s + Z.of_nat (length cs) <= NetworkStream.maxSize_ s ->
  fst (NetworkStream.write_all cs s) = true /\
  stream_ok (snd (NetworkStream.write_all cs s)) /\
  NetworkStream.maxSize_ (snd (NetworkStream.write_all cs s)) = NetworkStream.maxSize_ s /\
  NetworkStream.pptr (snd (NetworkStream.write_all cs s))
    = NetworkStream.pptr s + Z.of_nat (length cs) /\
  fst (NetworkStream.buffer (snd (NetworkStream.write_all cs s)))
    = fst (NetworkStream.buffer s) ++ cs.
Proof.
  induction cs as [|c cs IH]; intros s Hok Hb Hlen.
  - cbn [NetworkStream.write_all fst snd length Z.of_nat].
    rewrite app_nil_r, Z.add_0_r.
    split; [reflexivity|]. split; [exact Hok|]. repeat split.
  - cbn [length] in Hlen. inversion Hb as [|? ? Hc Hcs]; subst.
    destruct (sputc_below_maxSize c s Hok Hc) as (Hr & Hok' & Hmx & Hp & Hbuf & _);
      [lia|].
    cbn [NetworkStream.write_all].
    destruct (NetworkStream.sputc c s) as [r s'] eqn:E. cbn [fst snd] in *.
    subst r.
    replace (c =? Eof) with false
      by (symmetry; apply Z.eqb_neq; unfold is_byte, Eof in *; lia).
    destruct (IH s' Hok' Hcs) as (I1 & I2 & I3 & I4 & I5); [lia|].
    rewrite I3, I4, I5, Hbuf, Hmx, Hp, <- app_assoc. cbn [app length].
    split; [exact I1|]. split; [exact I2|]. repeat split. lia.
Qed.

(** C8. For a stream made with initial capacity [cap >= 1] and
    [maxSize >= cap], writing the bytes of [cs] one at a time succeeds for
    every [cs] of at most [maxSize] bytes, and the buffer then holds exactly
    these bytes. While fewer than [maxSize] bytes are written, one more write
    succeeds; it leaves the capacity as it is when there is room and
    otherwise sets it to twice the capacity, clamped to [maxSize]. Once
    [maxSize] bytes are written, one more write returns eof and changes
    nothing: the written length stays [maxSize]. *)
Theorem growable_buffer_takes_exactly_maxSize_bytes
        (cap maxSize : Z) (cs : list Z) (c : Z) :
  1 <= cap <= maxSize -> maxSize <= ptrdiff_max ->
  Forall is_byte cs -> is_byte c ->
  Z.of_nat (length cs) <= maxSize ->
  fst (NetworkStream.write_all cs (NetworkStream.create cap maxSize)) = true /\
  NetworkStream.buffer
    (snd (NetworkStream.write_all cs (NetworkStream.create cap maxSize)))
    = (cs, Z.of_nat (length cs)) /\
  (Z.of_nat (length cs) < maxSize ->
     fst (NetworkStream.sputc c
            (snd (NetworkStream.write_all cs (NetworkStream.create cap maxSize))))
       <> Eof /\
     NetworkStream.buffer
       (snd (NetworkStream.sputc c
               (snd (NetworkStream.write_all cs (NetworkStream.create cap maxSize)))))
       = (cs ++ [c], Z.of_nat (length cs) + 1) /\
     NetworkStream.capacity
       (snd (NetworkStream.sputc c
               (snd (NetworkStream.write_all cs (NetworkStream.create cap maxSize)))))
       = (if Z.of_nat (length cs)
             <? NetworkStream.capacity
                  (snd (NetworkStream.write_all cs (NetworkStream.create cap maxSize)))
          then NetworkStream.capacity
                 (snd (NetworkStream.write_all cs (NetworkStream.create cap maxSize)))
          else Z.min (2 * NetworkStream.capacity
                            (snd (NetworkStream.write_all cs
                                    (NetworkStream.create cap maxSize))))
                     maxSize)) /\
  (Z.of_nat (length cs) = maxSize ->
     NetworkStream.sputc c
       (snd (NetworkStream.write_all cs (NetworkStream.create cap maxSize)))
     = (Eof, snd (NetworkStream.write_all cs (NetworkStream.create cap maxSize)))).
Proof.
  intros Hcap Hmax Hcs Hc Hlen.
  destruct (create_ok cap maxSize Hcap Hmax) as (Hok0 & Hp0 & Hc0 & Hm0).
  destruct (write_all_below_maxSize cs (NetworkStream.create cap maxSize) Hok0 Hcs)
    as (W1 & Wok & Wmx & Wp & Wbuf); [rewrite Hp0, Hm0; lia|].
  set (s := snd (NetworkStream.write_all cs (NetworkStream.create cap maxSize))) in *.
  rewrite Hp0, Z.add_0_l in Wp. rewrite Hm0 in Wmx.
  assert (Hb0 : fst (NetworkStream.buffer (NetworkStream.create cap maxSize)) = []).
  { unfold NetworkStream.buffer. rewrite Hp0. reflexivity. }
  rewrite Hb0 in Wbuf. cbn [app] in Wbuf.
  assert (Hbuf : NetworkStream.buffer s = (cs, Z.of_nat (length cs))).
  { unfold NetworkStream.buffer in *. cbn [fst] in Wbuf. rewrite Wbuf, Wp. reflexivity. }
  split; [exact W1|]. split; [exact Hbuf|]. split.
  - intros Hlt.
    destruct (sputc_below_maxSize c s Wok Hc) as (Hr & _ & _ & Hp & Hb & Hcapacity);
      [rewrite Wp, Wmx; exact Hlt|].
    split; [rewrite Hr; unfold is_byte, Eof in *; lia|]. split.
    + unfold NetworkStream.buffer in *. cbn [fst] in *.
      rewrite Hb, Hp, Wbuf, Wp. reflexivity.
    + rewrite Hcapacity, Wp, Wmx. reflexivity.
  - intros Hfull. apply sputc_at_maxSize; [exact Wok|exact Hc|].
    rewrite Wp, Wmx. exact Hfull.
Qed.

Lemma growable_buffer_takes_exactly_maxSize_bytes_witness :
  (fst (NetworkStream.write_all [1; 2; 3; 4] (NetworkStream.create 4 8)) = true /\
   NetworkStream.capacity
     (snd (NetworkStream.write_all [1; 2; 3; 4] (NetworkStream.create 4 8))) = 4 /\
   NetworkStream.capacity
     (snd (NetworkStream.sputc 5
             (snd (NetworkStream.write_all [1; 2; 3; 4] (NetworkStream.create 4 8)))))
     = 8) /\
  (fst (NetworkStream.write_all [1; 2; 3; 4; 5; 6; 7; 8] (NetworkStream.create 4 8))
     = true /\
   fst (NetworkStream.sputc 9
          (snd (NetworkStream.write_all [1; 2; 3; 4; 5; 6; 7; 8]
                                        (NetworkStream.create 4 8)))) = Eof /\
   snd (NetworkStream.buffer
          (snd (NetworkStream.sputc 9
                  (snd (NetworkStream.write_all [1; 2; 3; 4; 5; 6; 7; 8]
                                                (NetworkStream.create 4 8)))))) = 8).
Proof.
  assert (Hbytes : forall l, forallb (fun x => (0 <=? x) && (x <? 256)) l = true ->
                             Forall is_byte l).
  { intros l H. apply Forall_forall. intros x Hx.
    rewrite forallb_forall in H. specialize (H x Hx).
    apply andb_true_iff in H. destruct H as [H1 H2].
    apply Z.leb_le in H1. apply Z.ltb_lt in H2. split; assumption. }
  split.
  - destruct (growable_buffer_takes_exactly_maxSize_bytes 4 8 [1; 2; 3; 4] 5)
      as (H1 & _ & H3 & _).
    + lia.
    + unfold ptrdiff_max. lia.
    + apply Hbytes. reflexivity.
    + unfold is_byte. lia.
    + cbn. lia.
    + destruct H3 as (_ & _ & H3); [cbn; lia|].
      split; [exact H1|]. split; [reflexivity|]. rewrite H3. reflexivity.
  - destruct (growable_buffer_takes_exactly_maxSize_bytes
                4 8 [1; 2; 3; 4; 5; 6; 7; 8] 9) as (H1 & H2 & _ & H4).
    + lia.
    + unfold ptrdiff_max. lia.
    + apply Hbytes. reflexivity.
    + unfold is_byte. lia.
    + cbn. lia.
    + split; [exact H1|]. rewrite H4 by reflexivity. cbn [fst snd].
      split; [reflexivity|]. rewrite H2. reflexivity.
Defined.

(** * Further properties of the stream layer *)

(** ** [match_raw] *)

Lemma compare_bytes_zero xs : forall ys,
  length xs = length ys -> (compare_bytes xs ys = 0 <-> xs = ys).
Proof.
  induction xs as [|x xs IH]; intros [|y ys] Hl; cbn [length] in Hl; try lia.
  - cbn. tauto.
  - cbn [compare_bytes]. destruct (x =? y) eqn:E.
    + apply Z.eqb_eq in E. subst y. rewrite IH by lia.
      split; [intros ->; reflexivity|intros H; inversion H; reflexivity].
    + apply Z.eqb_neq in E. split; [lia|intros H; inversion H; contradiction].
Qed.

Lemma addrs_length n : forall p, length (addrs p n) = n.
Proof. induction n as [|n IH]; intros p; cbn; [reflexivity|rewrite IH; reflexivity]. Qed.

Lemma match_raw_run mem buf len w :
  0 <= len <= Z.of_nat (length buf) ->
  match_raw mem buf len w =
  if fst (remaining w) <? len then (false, w)
  else if list_eq_dec Z.eq_dec
            (map (load mem) (addrs (gptr (sb w)) (Z.to_nat len)))
            (firstn (Z.to_nat len) buf)
       then (true,
             mkMachine (mkStreamBuf (eback (sb w)) (gptr (sb w) + len) (egptr (sb w)))
                       (loads w ++ addrs (gptr (sb w)) (Z.to_nat len)
                                ++ addrs (gptr (sb w)) (Z.to_nat len)))
       else (false,
             mkMachine (sb w) (loads w ++ addrs (gptr (sb w)) (Z.to_nat len))).
Proof.
  intros Hlen. unfold match_raw, remaining. unfold bind at 1. rewrite in_avail_run.
  cbn [fst]. destruct (_ <? len) eqn:Hr; [reflexivity|]. apply Z.ltb_ge in Hr.
  unfold offset, curptr, memcmp. run. rewrite load_range_run. run.
  assert (Hsame : length (map (load mem) (addrs (gptr (sb w)) (Z.to_nat len)))
                  = length (firstn (Z.to_nat len) buf)).
  { rewrite length_map, addrs_length, length_firstn. lia. }
  destruct (list_eq_dec _ _ _) as [Heq|Hne].
  - replace (compare_bytes _ _ =? 0) with true
      by (symmetry; apply Z.eqb_eq; apply compare_bytes_zero; assumption).
    destruct (Z.eq_dec len 0) as [->|Hpos].
    + rewrite advance_zero. cbn [Z.to_nat addrs]. rewrite !app_nil_r, Z.add_0_r.
      rewrite streambuf_eta. reflexivity.
    + assert (Hle : len <= egptr (sb w) - gptr (sb w)).
      { destruct (gptr (sb w) <? egptr (sb w)) eqn:E; [lia|].
        apply Z.ltb_ge in E. lia. }
      rewrite advance_ok by (cbn [sb gptr egptr]; lia).
      cbn [sb loads eback gptr egptr]. rewrite <- app_assoc. reflexivity.
  - replace (compare_bytes _ _ =? 0) with false; [reflexivity|].
    symmetry. apply Z.eqb_neq. intros H. apply Hne.
    apply compare_bytes_zero; assumption.
Qed.

(** X1. Over a window whose current pointer is not beyond its end,
    [match_raw(buf, len, cursor)] returns true exactly when at least [len]
    bytes remain and the [len] bytes at the cursor are the first [len] bytes
    of [buf]; it then moves the cursor forward by exactly [len] and keeps
    start and end. When it returns false the window is as before. *)
Theorem match_raw_all_or_nothing
        (mem : Memory) (buf : list Z) (len : Z) (w : Machine) :
  gptr (sb w) <= egptr (sb w) ->
  0 <= len <= Z.of_nat (length buf) ->
  (fst (match_raw mem buf len w) = true <->
     len <= fst (remaining w) /\
     map (load mem) (addrs (gptr (sb w)) (Z.to_nat len)) = firstn (Z.to_nat len) buf) /\
  (fst (match_raw mem buf len w) = true ->
     sb (snd (match_raw mem buf len w))
     = mkStreamBuf (eback (sb w)) (gptr (sb w) + len) (egptr (sb w))) /\
  (fst (match_raw mem buf len w) = false ->
     sb (snd (match_raw mem buf len w)) = sb w).
Proof.
  intros _ Hlen. rewrite match_raw_run by exact Hlen.
  destruct (fst (remaining w) <? len) eqn:Hr;
    [apply Z.ltb_lt in Hr|apply Z.ltb_ge in Hr].
  - cbn [fst snd]. repeat split; try discriminate. intros [H _]. lia.
  - destruct (list_eq_dec _ _ _) as [Heq|Hne]; cbn [fst snd sb].
    + repeat split; try assumption; try discriminate.
    + repeat split; try discriminate. intros [_ H]. contradiction.
Qed.

Lemma match_raw_all_or_nothing_witness :
  fst (match_raw (mkMemory 4096 (bytes_of_string "Host: example.com"))
                 (bytes_of_string "Host") 4 (fresh 4096 17)) = true /\
  sb (snd (match_raw (mkMemory 4096 (bytes_of_string "Host: example.com"))
                     (bytes_of_string "Host") 4 (fresh 4096 17)))
  = mkStreamBuf 4096 (4096 + 4) (4096 + 17).
Proof.
  destruct (match_raw_all_or_nothing
              (mkMemory 4096 (bytes_of_string "Host: example.com"))
              (bytes_of_string "Host") 4 (fresh 4096 17)) as (H1 & H2 & _).
  - cbn. lia.
  - cbn. lia.
  - assert (Ht : fst (match_raw (mkMemory 4096 (bytes_of_string "Host: example.com"))
                                (bytes_of_string "Host") 4 (fresh 4096 17)) = true).
    { apply H1. split; [cbn; lia|reflexivity]. }
    split; [exact Ht|exact (H2 Ht)].
Defined.

(** ** The loads of the three bounded matchers *)

(** X2. Over a window whose current pointer is not beyond its end,
    [match_raw], [match_literal] and [match_until] load only from addresses
    inside the readable part of the window as it was at the call: none of
    them reads before the current pointer or at or past the end. *)
Theorem bounded_matchers_load_inside_window
        (mem : Memory) (buf : list Z) (len c : Z) (chars : list Z)
        (cs : CaseSensitivity) (w : Machine) :
  gptr (sb w) <= egptr (sb w) ->
  0 <= len ->
  (exists l, loads (snd (match_raw mem buf len w)) = loads w ++ l /\
             Forall (in_window (sb w)) l) /\
  (exists l, loads (snd (match_literal mem c cs w)) = loads w ++ l /\
             Forall (in_window (sb w)) l) /\
  (exists l, loads (snd (match_until mem chars cs w)) = loads w ++ l /\
             Forall (in_window (sb w)) l).
Proof.
  intros _ Hlen. split; [|split].
  - apply match_raw_loads_in_window. exact Hlen.
  - apply match_literal_loads_in_window.
  - destruct (match_until_outcome mem chars cs w) as (b & _ & _ & _ & _ & _ & _ & _ & H).
    exact H.
Qed.

Lemma bounded_matchers_load_inside_window_witness :
  exists l,
    loads (snd (match_raw (mkMemory 4096 (bytes_of_string "Host: example.com"))
                          (bytes_of_string "Hoax") 4 (fresh 4096 17)))
    = loads (fresh 4096 17) ++ l /\
    Forall (in_window (sb (fresh 4096 17))) l.
Proof.
  destruct (bounded_matchers_load_inside_window
              (mkMemory 4096 (bytes_of_string "Host: example.com"))
              (bytes_of_string "Hoax") 4 0 [] Sensitive (fresh 4096 17)) as (H & _).
  - cbn. lia.
  - lia.
  - exact H.
Defined.

(** ** [match_literal] *)

(** X3. Over a window whose current pointer is not beyond its end,
    [match_literal] consumes one byte or nothing: when it returns true there
    was a byte left and the cursor has moved forward by exactly one, start
    and end kept; when it returns false the window is as before; and at EOF
    it returns false. *)
Theorem match_literal_consumes_one_or_nothing
        (mem : Memory) (c : Z) (cs : CaseSensitivity) (w : Machine) :
  gptr (sb w) <= egptr (sb w) ->
  (fst (match_literal mem c cs w) = true ->
     gptr (sb w) < egptr (sb w) /\
     sb (snd (match_literal mem c cs w))
     = mkStreamBuf (eback (sb w)) (gptr (sb w) + 1) (egptr (sb w))) /\
  (fst (match_literal mem c cs w) = false ->
     sb (snd (match_literal mem c cs w)) = sb w) /\
  (fst (eof w) = true -> fst (match_literal mem c cs w) = false).
Proof.
  intros _.
  destruct (Z_lt_le_dec (gptr (sb w)) (egptr (sb w))) as [H|H].
  - rewrite match_literal_run by exact H. rewrite eof_false by exact H.
    destruct (find cs [c] _); cbn [fst snd sb]; repeat split; try discriminate.
    exact H.
  - rewrite match_literal_at_eof by exact H. cbn [fst snd].
    repeat split; discriminate.
Qed.

Lemma match_literal_consumes_one_or_nothing_witness :
  fst (match_literal (mkMemory 4096 (bytes_of_string "host")) 104 Sensitive
                     (fresh 4096 4)) = true /\
  sb (snd (match_literal (mkMemory 4096 (bytes_of_string "host")) 104 Sensitive
                         (fresh 4096 4)))
  = mkStreamBuf 4096 (4096 + 1) (4096 + 4).
Proof.
  destruct (match_literal_consumes_one_or_nothing
              (mkMemory 4096 (bytes_of_string "host")) 104 Sensitive (fresh 4096 4))
    as (H & _).
  - cbn. lia.
  - assert (Ht : fst (match_literal (mkMemory 4096 (bytes_of_string "host")) 104
                                    Sensitive (fresh 4096 4)) = true)
      by reflexivity.
    split; [exact Ht|exact (proj2 (H Ht))].
Defined.

Lemma tolower_off_uppercase x : is_upper x = false -> tolower x = x.
Proof. unfold is_upper, tolower. intros ->. reflexivity. Qed.

(** X4. When the byte at the cursor is not an ASCII upper-case letter,
    [match_literal] answers as the case policy reads: for [Sensitive] it
    matches exactly when the argument is that byte, for [Insensitive] exactly
    when the argument and the byte are equal after case folding. *)
Theorem match_literal_follows_policy_off_uppercase
        (mem : Memory) (c : Z) (cs : CaseSensitivity) (w : Machine) :
  gptr (sb w) < egptr (sb w) ->
  is_upper (char_at mem (gptr (sb w))) = false ->
  fst (match_literal mem c cs w) = equal_under cs c (char_at mem (gptr (sb w))).
Proof.
  intros Hw Hup. rewrite match_literal_run by exact Hw.
  unfold char_at in *. cbn [find].
  destruct cs; cbn [is_Sensitive is_Insensitive equal_under];
    rewrite ?(tolower_off_uppercase _ Hup);
    match goal with |- context [?a =? ?b] => destruct (a =? b) end;
    reflexivity.
Qed.

Lemma match_literal_follows_policy_off_uppercase_witness :
  fst (match_literal (mkMemory 4096 (bytes_of_string "host")) 72 Insensitive
                     (fresh 4096 4)) = true.
Proof.
  rewrite (match_literal_follows_policy_off_uppercase
             (mkMemory 4096 (bytes_of_string "host")) 72 Insensitive (fresh 4096 4)).
  - reflexivity.
  - cbn. lia.
  - reflexivity.
Defined.

(** ** [match_until] *)

Lemma eof_true_inv w : fst (eof w) = true -> egptr (sb w) <= gptr (sb w).
Proof.
  rewrite eof_run. cbn [fst].
  destruct (gptr (sb w) <? egptr (sb w)) eqn:E; intros H.
  - apply Z.ltb_lt in E. apply Z.eqb_eq in H. lia.
  - apply Z.ltb_ge in E. exact E.
Qed.

(** X5. Over a window whose current pointer is not beyond its end,
    [match_until] always comes to an answer. It moves the current pointer
    forwards only, keeping start and end, and no byte it has passed satisfies
    [find]. On true the cursor stands on a byte of the window that satisfies
    [find] (the first one); on false no byte of the window satisfies [find]
    and the cursor is at EOF, at the end of the window: the bytes scanned
    stay consumed. *)
Theorem match_until_stops_at_first_match
        (mem : Memory) (chars : list Z) (cs : CaseSensitivity) (w : Machine) :
  gptr (sb w) <= egptr (sb w) ->
  exists b : bool,
    fst (match_until mem chars cs w) = Some b /\
    eback (sb (snd (match_until mem chars cs w))) = eback (sb w) /\
    egptr (sb (snd (match_until mem chars cs w))) = egptr (sb w) /\
    gptr (sb w) <= gptr (sb (snd (match_until mem chars cs w))) /\
    (forall a, gptr (sb w) <= a < gptr (sb (snd (match_until mem chars cs w))) ->
               find cs chars (char_at mem a) = false) /\
    (b = true ->
       in_window (sb w) (gptr (sb (snd (match_until mem chars cs w)))) /\
       find cs chars (char_at mem (gptr (sb (snd (match_until mem chars cs w)))))
       = true) /\
    (b = false ->
       (forall a, in_window (sb w) a -> find cs chars (char_at mem a) = false) /\
       fst (eof (snd (match_until mem chars cs w))) = true /\
       gptr (sb (snd (match_until mem chars cs w))) = egptr (sb w)).
Proof.
  intros Hwin.
  destruct (match_until_outcome mem chars cs w)
    as (b & Hres & Hb & He & Hg & Hpass & Ht & Hf & _).
  exists b. split; [exact Hres|]. split; [exact Hb|]. split; [exact He|].
  split; [exact Hg|]. split; [exact Hpass|]. split.
  - intros Hbt. destruct (Ht Hbt) as [H1 H2]. split; [|exact H2].
    unfold in_window. lia.
  - intros Hbf. destruct (Hf Hbf) as [H1 H2]. split; [|split].
    + intros a Ha. apply Hpass. unfold in_window in Ha. lia.
    + rewrite eof_true by lia. reflexivity.
    + apply H2. exact Hwin.
Qed.

Lemma match_until_stops_at_first_match_witness :
  exists b : bool,
    fst (match_until (mkMemory 4096 (bytes_of_string "Host: example.com")) [58]
                     Insensitive (fresh 4096 17)) = Some b /\
    (b = true ->
     gptr (sb (snd (match_until (mkMemory 4096 (bytes_of_string "Host: example.com"))
                                [58] Insensitive (fresh 4096 17)))) = 4096 + 4).
Proof.
  destruct (match_until_stops_at_first_match
              (mkMemory 4096 (bytes_of_string "Host: example.com")) [58] Insensitive
              (fresh 4096 17)) as (b & Hres & _).
  - cbn. lia.
  - exists b. split; [exact Hres|]. intros _. reflexivity.
Defined.

(** X6. On a byte that is not an ASCII upper-case letter the lambda [find]
    of [match_until] answers as the case policy reads: it holds exactly when
    some target equals the byte under the policy. *)
Theorem find_follows_policy_off_uppercase
        (cs : CaseSensitivity) (chars : list Z) (x : Z) :
  is_upper x = false ->
  find cs chars x = existsb (fun c => equal_under cs c x) chars.
Proof.
  intros Hup. induction chars as [|c rest IH]; [reflexivity|].
  cbn [find existsb]. rewrite IH.
  destruct cs; cbn [is_Sensitive is_Insensitive equal_under];
    rewrite ?(tolower_off_uppercase _ Hup);
    match goal with |- context [?a =? ?b] => destruct (a =? b) end;
    reflexivity.
Qed.

Lemma find_follows_policy_off_uppercase_witness :
  find Insensitive [65; 58] 58 = true.
Proof.
  rewrite (find_follows_policy_off_uppercase Insensitive [65; 58] 58).
  - reflexivity.
  - reflexivity.
Defined.

(** ** [eol] and [next] *)

Lemma load_is_byte mem a : memory_ok mem -> is_byte (load mem a).
Proof.
  intros Hm. unfold load. destruct (a <? mbase mem); [unfold is_byte; lia|].
  destruct (Nat.lt_ge_cases (Z.to_nat (a - mbase mem)) (length (mbytes mem)))
    as [Hin|Hout].
  - unfold memory_ok in Hm. rewrite Forall_forall in Hm. apply Hm.
    apply nth_In. exact Hin.
  - rewrite nth_overflow by exact Hout. unfold is_byte. lia.
Qed.

Lemma char_to_int_is_LF c : is_byte c -> (char_to_int c =? LF) = (c =? LF).
Proof.
  unfold is_byte, char_to_int, LF. intros Hc.
  destruct (c <? 128) eqn:E; [reflexivity|]. apply Z.ltb_ge in E.
  replace (c - 256 =? 10) with false by (symmetry; apply Z.eqb_neq; lia).
  symmetry. apply Z.eqb_neq. lia.
Qed.

(** X7. [eol()] never moves the cursor. It is false at EOF. With at least
    two bytes left it is true exactly when the current byte is CR and the
    byte after it is LF. *)
Theorem eol_detects_crlf (mem : Memory) (w : Machine) :
  memory_ok mem ->
  sb (snd (eol mem w)) = sb w /\
  (fst (eof w) = true -> fst (eol mem w) = false) /\
  (gptr (sb w) + 2 <= egptr (sb w) ->
     fst (eol mem w)
     = (load mem (gptr (sb w)) =? CR) && (load mem (gptr (sb w) + 1) =? LF)).
Proof.
  intros Hm.
  assert (Hempty : egptr (sb w) <= gptr (sb w) -> eol mem w = (false, w)).
  { intros H. unfold eol, sgetc. run.
    replace (gptr (sb w) <? egptr (sb w)) with false
      by (symmetry; apply Z.ltb_ge; lia).
    reflexivity. }
  assert (Hsome : gptr (sb w) < egptr (sb w) ->
                  eol mem w =
                  if load mem (gptr (sb w)) =? CR
                  then (char_to_int (load mem (gptr (sb w) + 1)) =? LF,
                        mkMachine (sb w) ((loads w ++ [gptr (sb w)])
                                                ++ [gptr (sb w) + 1]))
                  else (false, mkMachine (sb w) (loads w ++ [gptr (sb w)]))).
  { intros H. unfold eol, sgetc. run.
    replace (gptr (sb w) <? egptr (sb w)) with true
      by (symmetry; apply Z.ltb_lt; lia).
    unfold deref at 1. destruct (load mem (gptr (sb w)) =? CR); [|reflexivity].
    unfold bind. rewrite next_nonempty_window by (cbn [sb gptr egptr]; lia).
    reflexivity. }
  split; [|split].
  - destruct (Z_lt_le_dec (gptr (sb w)) (egptr (sb w))) as [H|H].
    + rewrite Hsome by exact H. destruct (_ =? CR); reflexivity.
    + rewrite Hempty by exact H. reflexivity.
  - intros He. rewrite Hempty by (apply eof_true_inv; exact He). reflexivity.
  - intros H2. rewrite Hsome by lia.
    destruct (load mem (gptr (sb w)) =? CR); cbn [fst andb]; [|reflexivity].
    apply char_to_int_is_LF. apply load_is_byte. exact Hm.
Qed.

Lemma eol_detects_crlf_witness :
  fst (eol (mkMemory 4096 (bytes_of_string "Host: example.com" ++ [13; 10]))
           (mkMachine (mkStreamBuf 4096 (4096 + 17) (4096 + 19)) [])) = true.
Proof.
  destruct (eol_detects_crlf
              (mkMemory 4096 (bytes_of_string "Host: example.com" ++ [13; 10]))
              (mkMachine (mkStreamBuf 4096 (4096 + 17) (4096 + 19)) []))
    as (_ & _ & H).
  - unfold memory_ok. cbn [mbytes].
    apply Forall_forall. intros x Hx.
    assert (Hb : forallb (fun y => (0 <=? y) && (y <? 256))
                         (bytes_of_string "Host: example.com" ++ [13; 10]) = true)
      by reflexivity.
    rewrite forallb_forall in Hb. specialize (Hb x Hx).
    apply andb_true_iff in Hb. destruct Hb as [H1 H2].
    apply Z.leb_le in H1. apply Z.ltb_lt in H2. split; assumption.
  - rewrite H by (cbn; lia). reflexivity.
Defined.

(** X8. With at least two bytes left, [next()] returns the byte after the
    current one, as the [int] value of that [char] (the byte itself when it is
    below 128), from an address inside the window; on an empty window it
    returns the EOF sentinel without a load. It never moves the cursor. *)
Theorem next_peeks_following_byte (mem : Memory) (w : Machine) :
  sb (snd (next mem w)) = sb w /\
  (egptr (sb w) <= gptr (sb w) -> next mem w = (Eof, w)) /\
  (gptr (sb w) + 2 <= egptr (sb w) ->
     fst (next mem w) = char_to_int (load mem (gptr (sb w) + 1)) /\
     (load mem (gptr (sb w) + 1) < 128 ->
      fst (next mem w) = load mem (gptr (sb w) + 1)) /\
     loads (snd (next mem w)) = loads w ++ [gptr (sb w) + 1] /\
     in_window (sb w) (gptr (sb w) + 1)).
Proof.
  split; [apply next_keeps_window|]. split; [apply next_empty_window|].
  intros H. rewrite next_nonempty_window by lia. cbn [fst snd loads].
  split; [reflexivity|]. split; [|split; [reflexivity|unfold in_window; lia]].
  intros Hlow. unfold char_to_int.
  replace (load mem (gptr (sb w) + 1) <? 128) with true
    by (symmetry; apply Z.ltb_lt; exact Hlow).
  reflexivity.
Qed.

Lemma next_peeks_following_byte_witness :
  fst (next (mkMemory 4096 [65; 66]) (fresh 4096 2)) = 66.
Proof.
  destruct (next_peeks_following_byte (mkMemory 4096 [65; 66]) (fresh 4096 2))
    as (_ & _ & H).
  destruct H as (_ & H & _); [cbn; lia|]. rewrite H; reflexivity.
Defined.

(** ** Runs of [advance] *)

Lemma addrs_app a : forall p b,
  addrs p (a + b) = addrs p a ++ addrs (p + Z.of_nat a) b.
Proof.
  induction a as [|a IH]; intros p b.
  - cbn [addrs Nat.add app Z.of_nat]. rewrite Z.add_0_r. reflexivity.
  - cbn [addrs Nat.add app]. rewrite IH.
    replace (p + Z.of_nat (S a)) with (p + 1 + Z.of_nat a) by lia. reflexivity.
Qed.

Lemma sum_counts_nonneg counts :
  Forall (fun c => 0 <= c) counts -> 0 <= sum_counts counts.
Proof.
  induction 1 as [|c cs Hc _ IH]; cbn [sum_counts]; lia.
Qed.

Lemma remaining_well_formed w :
  well_formed (sb w) -> fst (remaining w) = egptr (sb w) - gptr (sb w).
Proof.
  intros (_ & _ & H & _). unfold remaining. rewrite in_avail_run. cbn [fst].
  destruct (gptr (sb w) <? egptr (sb w)) eqn:E; [reflexivity|].
  apply Z.ltb_ge in E. lia.
Qed.

Lemma advances_fit mem counts : forall w,
  Forall (fun c => 0 <= c) counts ->
  sum_counts counts <= egptr (sb w) - gptr (sb w) ->
  advances mem counts w = (tt, snd (advance mem (sum_counts counts) w)).
Proof.
  induction counts as [|c cs IH]; intros w Hpos Hsum.
  - cbn [advances sum_counts]. rewrite advance_zero. reflexivity.
  - inversion Hpos as [|? ? Hc Hcs]; subst. cbn [sum_counts] in *.
    pose proof (sum_counts_nonneg cs Hcs) as Hnn.
    cbn [advances]. unfold bind. rewrite advance_ok by lia.
    rewrite IH by (try assumption; cbn [sb gptr egptr]; lia).
    rewrite !advance_ok by (cbn [sb gptr egptr]; lia).
    cbn [snd sb loads eback gptr egptr].
    rewrite Z2Nat.inj_add by lia. rewrite addrs_app, Z2Nat.id by lia.
    rewrite <- app_assoc, Z.add_assoc. reflexivity.
Qed.

(** X9. A run of [advance] calls whose counts together do not exceed
    [remaining()] does what one [advance] by their sum does: every call
    succeeds and the machine at the end is the same, the cursor having moved
    forward by the sum. *)
Theorem advances_add_up (mem : Memory) (counts : list Z) (w : Machine) :
  well_formed (sb w) ->
  Forall (fun c => 0 <= c) counts ->
  sum_counts counts <= fst (remaining w) ->
  snd (advances mem counts w) = snd (advance mem (sum_counts counts) w) /\
  fst (advance mem (sum_counts counts) w) = true /\
  sb (snd (advances mem counts w))
  = mkStreamBuf (eback (sb w)) (gptr (sb w) + sum_counts counts) (egptr (sb w)).
Proof.
  intros Hwf Hpos Hsum. rewrite remaining_well_formed in Hsum by exact Hwf.
  pose proof (sum_counts_nonneg counts Hpos) as Hnn.
  rewrite advances_fit by assumption. rewrite advance_ok by lia.
  repeat split.
Qed.

Lemma advances_add_up_witness :
  sb (snd (advances (mkMemory 4096 (bytes_of_string "Host: example.com"))
                    [4; 0; 2] (fresh 4096 17)))
  = mkStreamBuf 4096 (4096 + 6) (4096 + 17).
Proof.
  destruct (advances_add_up (mkMemory 4096 (bytes_of_string "Host: example.com"))
                            [4; 0; 2] (fresh 4096 17)) as (_ & _ & H).
  - unfold well_formed, size_max. cbn. lia.
  - repeat constructor; lia.
  - cbn. lia.
  - exact H.
Defined.

(** ** The window under the cursor's operations *)

Lemma moved_forward_refl b : gptr b <= egptr b -> moved_forward b b.
Proof. unfold moved_forward. lia. Qed.

Lemma advance_moved_forward mem count w :
  well_formed (sb w) -> 0 <= count ->
  moved_forward (sb w) (sb (snd (advance mem count w))).
Proof.
  intros Hwf Hc. pose proof Hwf as (_ & _ & Hge & _).
  destruct (Z_lt_le_dec (fst (in_avail w)) count) as [Hlt|Hle].
  - rewrite advance_fail by exact Hlt. apply moved_forward_refl. exact Hge.
  - change (in_avail w) with (remaining w) in Hle.
    rewrite remaining_well_formed in Hle by exact Hwf.
    rewrite advance_ok by lia. unfold moved_forward. cbn. lia.
Qed.

(** X10. Over a well-formed window, [advance] and the four matchers keep
    start and end of the window and move the current pointer forwards only
    and never beyond the end; so the window stays well formed. *)
Theorem cursor_stays_inside_window
        (mem : Memory) (strtod : list Z -> StrtodResult) (buf : list Z)
        (len count c : Z) (chars : list Z) (cs : CaseSensitivity) (val : Q)
        (w : Machine) :
  well_formed (sb w) -> 0 <= count -> 0 <= len <= Z.of_nat (length buf) ->
  moved_forward (sb w) (sb (snd (advance mem count w))) /\
  moved_forward (sb w) (sb (snd (match_raw mem buf len w))) /\
  moved_forward (sb w) (sb (snd (match_literal mem c cs w))) /\
  moved_forward (sb w) (sb (snd (match_until mem chars cs w))) /\
  moved_forward (sb w) (sb (snd (match_double mem strtod val w))) /\
  (forall b', moved_forward (sb w) b' -> well_formed b').
Proof.
  intros Hwf Hc Hlen. pose proof Hwf as (Hb & Hbg & Hge & He).
  split; [apply advance_moved_forward; assumption|]. split; [|split; [|split; [|split]]].
  - rewrite match_raw_run by exact Hlen. rewrite remaining_well_formed by exact Hwf.
    destruct (_ <? len) eqn:E; [apply moved_forward_refl; exact Hge|].
    apply Z.ltb_ge in E.
    destruct (list_eq_dec _ _ _); cbn [snd sb];
      [unfold moved_forward; cbn; lia|apply moved_forward_refl; exact Hge].
  - destruct (Z_lt_le_dec (gptr (sb w)) (egptr (sb w))) as [H|H].
    + rewrite match_literal_run by exact H.
      destruct (find cs [c] _); cbn [snd sb];
        [unfold moved_forward; cbn; lia|apply moved_forward_refl; exact Hge].
    + rewrite match_literal_at_eof by exact H. apply moved_forward_refl. exact Hge.
  - destruct (match_until_outcome mem chars cs w)
      as (b & _ & H1 & H2 & H3 & _ & Ht & Hf & _).
    unfold moved_forward. split; [exact H1|]. split; [exact H2|]. split; [exact H3|].
    destruct b; [destruct Ht as [Ht _]; [reflexivity|lia]|].
    destruct Hf as [_ Hf]; [reflexivity|]. rewrite Hf by exact Hge. lia.
  - rewrite match_double_run. cbv zeta.
    destruct (sd_consumed _ =? 0)%nat; cbn [snd sb];
      [apply moved_forward_refl; exact Hge|].
    match goal with
    | |- moved_forward _ (sb (snd (advance _ ?n ?m))) =>
        apply (advance_moved_forward mem n m); [exact Hwf|lia]
    end.
  - intros b' (H1 & H2 & H3 & H4). unfold well_formed. lia.
Qed.

Lemma cursor_stays_inside_window_witness :
  moved_forward (sb (fresh 4096 3))
    (sb (snd (match_until (mkMemory 4096 (bytes_of_string "a:b")) [58] Sensitive
                          (fresh 4096 3)))).
Proof.
  destruct (cursor_stays_inside_window
              (mkMemory 4096 (bytes_of_string "a:b")) strtod_decimal
              [] 0 0 0 [58] Sensitive 0%Q (fresh 4096 3)) as (_ & _ & _ & H & _).
  - unfold well_formed, size_max. cbn. lia.
  - lia.
  - cbn. lia.
  - exact H.
Defined.

(** ** [Token], [offset] and [diff] *)

Lemma position_well_formed w :
  well_formed (sb w) -> fst (position w) = gptr (sb w) - eback (sb w).
Proof.
  intros (Hb & Hbg & Hge & He). unfold position. run.
  apply wrap64_small. lia.
Qed.

(** X11. A token taken at some position and read after a successful
    [advance(n)] spans exactly the bytes consumed: its start is the position
    at construction, its end the position of the cursor now, its size is
    [n], and its text is the [n] bytes of memory from the pointer it has
    kept. *)
Theorem token_spans_consumed_bytes (mem : Memory) (w : Machine) (n : Z) :
  well_formed (sb w) -> 0 <= n <= fst (remaining w) ->
  let t := fst (Token_new w) in
  let w' := snd (advance mem n (snd (Token_new w))) in
  Token_start t = fst (position w) /\
  Token_rawText t = gptr (sb w) /\
  fst (Token_end w') = fst (position w) + n /\
  fst (Token_size t w') = n /\
  fst (Token_text mem t w') = map (load mem) (addrs (gptr (sb w)) (Z.to_nat n)).
Proof.
  intros Hwf Hn. cbv zeta.
  rewrite remaining_well_formed in Hn by exact Hwf.
  pose proof Hwf as (Hb & Hbg & Hge & He).
  assert (Hnew : Token_new w
                 = (mkToken (fst (position w)) (eback (sb w)) (gptr (sb w))
                            (egptr (sb w)), w)) by reflexivity.
  rewrite Hnew. cbn [fst snd Token_start Token_rawText t_position t_gptr].
  rewrite advance_ok by lia.
  set (w' := mkMachine _ _).
  assert (Hwf' : well_formed (sb w'))
    by (subst w'; unfold well_formed; cbn [sb eback gptr egptr]; lia).
  assert (Hend : fst (Token_end w') = fst (position w) + n).
  { unfold Token_end. rewrite !position_well_formed by assumption. cbn. lia. }
  assert (Hsize : Token_size (mkToken (fst (position w)) (eback (sb w)) (gptr (sb w))
                                      (egptr (sb w))) w' = (n, w')).
  { unfold Token_size. unfold bind.
    destruct (Token_end w') as [e w1] eqn:E.
    assert (w1 = w') by (unfold Token_end, position in E; run; inversion E; reflexivity).
    subst w1. cbn [fst] in Hend. subst e. unfold ret, Token_start.
    cbn [t_position]. rewrite wrap64_small by (unfold size_max in *; lia).
    f_equal. lia. }
  cbn [snd].
  split; [reflexivity|]. split; [reflexivity|]. split; [exact Hend|].
  split; [rewrite Hsize; reflexivity|].
  unfold Token_text. unfold bind. rewrite Hsize. cbn [t_gptr].
  rewrite load_range_run. reflexivity.
Qed.

Lemma token_spans_consumed_bytes_witness :
  fst (Token_text (mkMemory 4096 (bytes_of_string "Host: example.com"))
         (fst (Token_new (fresh 4096 17)))
         (snd (advance (mkMemory 4096 (bytes_of_string "Host: example.com")) 4
                       (snd (Token_new (fresh 4096 17))))))
  = bytes_of_string "Host".
Proof.
  destruct (token_spans_consumed_bytes
              (mkMemory 4096 (bytes_of_string "Host: example.com"))
              (fresh 4096 17) 4) as (_ & _ & _ & _ & H).
  - unfold well_formed, size_max. cbn. lia.
  - cbn. lia.
  - rewrite H. reflexivity.
Defined.

(** X12. [offset(position())] is the current pointer. After a successful
    [advance(n)], [diff] against the position before the call is [n], and so
    is [diff] of the cursor as it was against the cursor as it is now: the
    overload on a position subtracts its argument from this cursor's
    position, the overload on a cursor subtracts this cursor's position from
    the argument's. *)
Theorem position_pointer_and_diff_agree (mem : Memory) (w : Machine) (n : Z) :
  well_formed (sb w) -> 0 <= n <= fst (remaining w) ->
  fst (offset_at (fst (position w)) w) = fst (offset w) /\
  fst (diff (fst (position w)) (snd (advance mem n w))) = n /\
  fst (diff_cursor (snd (advance mem n w)) w) = n /\
  fst (offset (snd (advance mem n w))) = fst (offset w) + n.
Proof.
  intros Hwf Hn. rewrite remaining_well_formed in Hn by exact Hwf.
  pose proof Hwf as (Hb & Hbg & Hge & He).
  rewrite advance_ok by lia. set (w' := mkMachine _ _). cbn [snd].
  assert (Hwf' : well_formed (sb w'))
    by (subst w'; unfold well_formed; cbn [sb eback gptr egptr]; lia).
  assert (Hp' : fst (position w') = gptr (sb w) + n - eback (sb w))
    by (rewrite position_well_formed by exact Hwf'; reflexivity).
  pose proof (position_well_formed w Hwf) as Hp.
  split; [|split; [|split]].
  - unfold offset_at, begptr, offset, curptr. run. rewrite Hp. lia.
  - unfold diff. unfold bind. destruct (position w') as [p w1] eqn:E.
    cbn [fst] in Hp'. subst p. unfold ret. cbn [fst]. rewrite Hp.
    rewrite wrap64_small by (unfold size_max in *; lia). lia.
  - unfold diff_cursor. unfold bind. destruct (position w) as [p w1] eqn:E.
    cbn [fst] in Hp. subst p. unfold ret. cbn [fst]. rewrite Hp'.
    rewrite wrap64_small by (unfold size_max in *; lia). lia.
  - reflexivity.
Qed.

Lemma position_pointer_and_diff_agree_witness :
  fst (diff 0 (snd (advance (mkMemory 4096 (bytes_of_string "Host: example.com")) 4
                            (fresh 4096 17)))) = 4.
Proof.
  destruct (position_pointer_and_diff_agree
              (mkMemory 4096 (bytes_of_string "Host: example.com"))
              (fresh 4096 17) 4) as (_ & H & _).
  - unfold well_formed, size_max. cbn. lia.
  - cbn. lia.
  - exact H.
Defined.

(** ** The [Revert] guard around any code *)

(** X13. Whatever code runs on the cursor between the construction of a
    guard and its destruction, matchers included, a guard destroyed while
    active leaves the window as it was at construction, and a guard that was
    told [ignore()] leaves the window as that code left it. The loads the
    code has made are not undone. *)
Theorem revert_guard_makes_any_code_atomic
        (A : Type) (code : M A) (w : Machine) :
  sb (snd ((g <- Revert_new ;; code ;; Revert_delete g) w)) = sb w /\
  loads (snd ((g <- Revert_new ;; code ;; Revert_delete g) w))
  = loads (snd (code w)) /\
  snd ((g <- Revert_new ;; code ;; Revert_delete (ignore g)) w) = snd (code w).
Proof.
  unfold bind. rewrite Revert_new_run. destruct (code w) as [a w1].
  split; [|split].
  - rewrite Revert_delete_active by reflexivity. apply streambuf_eta.
  - reflexivity.
  - reflexivity.
Qed.

(** ** Construction and [reset] *)

(** X14. A cursor made over a [RawStreamBuf] of [len] bytes with an initial
    position within the buffer stands at that position, with the rest of the
    bytes remaining; with an initial position beyond the buffer the
    constructor's [advance] fails and the cursor stands at position 0, all
    [len] bytes remaining. *)
Theorem cursor_constructor_initial_position
        (mem : Memory) (begin len initialPos : Z) :
  0 <= begin -> 0 <= len -> begin + len < size_max -> 0 <= initialPos ->
  let w := snd (StreamCursor_init mem initialPos
                  (mkMachine (RawStreamBuf_len begin len) [])) in
  (initialPos <= len ->
     fst (position w) = initialPos /\ fst (remaining w) = len - initialPos) /\
  (len < initialPos ->
     fst (position w) = 0 /\ fst (remaining w) = len).
Proof.
  intros Hb Hl Hmax Hi. cbv zeta. unfold StreamCursor_init. unfold bind.
  set (w0 := mkMachine (RawStreamBuf_len begin len) []).
  assert (Hwf : well_formed (sb w0))
    by (subst w0; unfold well_formed, RawStreamBuf_len; cbn [sb eback gptr egptr]; lia).
  split; intros H.
  - rewrite advance_ok by (cbn; lia). unfold ret. cbn [snd].
    set (w1 := mkMachine _ _).
    assert (Hwf1 : well_formed (sb w1))
      by (subst w1 w0; unfold well_formed, RawStreamBuf_len;
          cbn [sb eback gptr egptr]; lia).
    rewrite position_well_formed, remaining_well_formed by exact Hwf1.
    cbn. lia.
  - rewrite advance_fail
      by (change (in_avail w0) with (remaining w0);
          rewrite remaining_well_formed by exact Hwf; cbn; lia).
    unfold ret. cbn [snd].
    rewrite position_well_formed, remaining_well_formed by exact Hwf.
    cbn. lia.
Qed.

Lemma cursor_constructor_initial_position_witness :
  fst (position (snd (StreamCursor_init (mkMemory 4096 [1; 2; 3]) 7
                        (mkMachine (RawStreamBuf_len 4096 3) [])))) = 0.
Proof.
  destruct (cursor_constructor_initial_position (mkMemory 4096 [1; 2; 3]) 4096 3 7)
    as (_ & H).
  - lia.
  - lia.
  - unfold size_max. lia.
  - lia.
  - destruct H as (H & _); [lia|exact H].
Defined.

(** X15. After [reset()] the cursor is at EOF at position 0 with nothing
    remaining: [next()] is the EOF sentinel, every [advance] by a positive
    count fails, [match_literal] and [match_until] return false and so does
    [match_raw] of a positive length, all without a load and leaving the
    machine as [reset()] left it. *)
Theorem reset_cursor_is_at_eof (mem : Memory) (w : Machine) :
  sb (snd (reset w)) = mkStreamBuf 0 0 0 /\
  loads (snd (reset w)) = loads w /\
  fst (eof (snd (reset w))) = true /\
  fst (remaining (snd (reset w))) = 0 /\
  fst (position (snd (reset w))) = 0 /\
  next mem (snd (reset w)) = (Eof, snd (reset w)) /\
  (forall count, 0 < count ->
     advance mem count (snd (reset w)) = (false, snd (reset w))) /\
  (forall c cs, match_literal mem c cs (snd (reset w)) = (false, snd (reset w))) /\
  (forall chars cs,
     match_until mem chars cs (snd (reset w)) = (Some false, snd (reset w))) /\
  (forall buf len, 0 < len ->
     match_raw mem buf len (snd (reset w)) = (false, snd (reset w))).
Proof.
  set (w' := snd (reset w)).
  assert (Hsb : sb w' = mkStreamBuf 0 0 0) by reflexivity.
  assert (Heof : egptr (sb w') <= gptr (sb w')) by (rewrite Hsb; cbn; lia).
  split; [reflexivity|]. split; [reflexivity|]. split; [reflexivity|].
  split; [reflexivity|]. split; [reflexivity|].
  split; [apply next_empty_window; exact Heof|].
  split; [intros count Hc; apply advance_fail; cbn; exact Hc|].
  split; [intros c cs; apply match_literal_at_eof; exact Heof|].
  split.
  - intros chars cs. reflexivity.
  - intros buf len Hlen. unfold match_raw, remaining. unfold bind at 1.
    rewrite in_avail_run. rewrite Hsb. cbn [gptr egptr Z.ltb Z.compare].
    replace (0 <? len) with true by (symmetry; apply Z.ltb_lt; exact Hlen).
    reflexivity.
Qed.

Lemma reset_cursor_is_at_eof_witness :
  advance (mkMemory 4096 [1; 2; 3]) 1 (snd (reset (fresh 4096 3)))
  = (false, snd (reset (fresh 4096 3))).
Proof.
  destruct (reset_cursor_is_at_eof (mkMemory 4096 [1; 2; 3]) (fresh 4096 3))
    as (_ & _ & _ & _ & _ & _ & H & _).
  apply H. lia.
Defined.

(** ** [match_double] over any [strtod] *)

(** X16. [match_double] follows [strtod], whatever it converts. When
    [strtod] consumes nothing the call returns false and the window is as
    before; when it consumes [n > 0] characters and [n] bytes remain, the call
    returns true and moves the cursor forward by exactly [n]; when it
    consumes more characters than remain, the call still returns true and
    the window is as before. In all three cases the output value is the one
    [strtod] returned. *)
Theorem match_double_follows_strtod
        (mem : Memory) (strtod : list Z -> StrtodResult) (val : Q) (w : Machine) :
  snd (fst (match_double mem strtod val w))
  = sd_value (strtod (bytes_from mem (gptr (sb w)))) /\
  (sd_consumed (strtod (bytes_from mem (gptr (sb w)))) = O ->
     fst (fst (match_double mem strtod val w)) = false /\
     sb (snd (match_double mem strtod val w)) = sb w) /\
  ((0 < sd_consumed (strtod (bytes_from mem (gptr (sb w)))))%nat ->
   Z.of_nat (sd_consumed (strtod (bytes_from mem (gptr (sb w)))))
     <= egptr (sb w) - gptr (sb w) ->
     fst (fst (match_double mem strtod val w)) = true /\
     sb (snd (match_double mem strtod val w))
     = mkStreamBuf (eback (sb w))
         (gptr (sb w) + Z.of_nat (sd_consumed (strtod (bytes_from mem (gptr (sb w))))))
         (egptr (sb w))) /\
  (fst (remaining w)
     < Z.of_nat (sd_consumed (strtod (bytes_from mem (gptr (sb w))))) ->
     fst (fst (match_double mem strtod val w)) = true /\
     sb (snd (match_double mem strtod val w)) = sb w).
Proof.
  rewrite match_double_run. cbv zeta.
  destruct (sd_consumed (strtod (bytes_from mem (gptr (sb w))))) as [|k] eqn:E.
  - cbn [Nat.eqb fst snd sb]. split; [reflexivity|]. split; [split; reflexivity|].
    split; [intros H; lia|]. intros H. cbn [Z.of_nat] in H.
    pose proof (in_avail_nonneg w). unfold remaining in H. lia.
  - cbn [Nat.eqb fst snd]. split; [reflexivity|]. split; [discriminate|]. split.
    + intros _ Hfit. rewrite advance_ok by (cbn [sb gptr egptr]; lia).
      split; reflexivity.
    + intros Hover. rewrite advance_fail by exact Hover. split; reflexivity.
Qed.

Lemma match_double_follows_strtod_witness :
  fst (fst (match_double (mkMemory 4096 (bytes_of_string "-2.5e1,")) strtod_decimal 0
                         (fresh 4096 7))) = true /\
  sb (snd (match_double (mkMemory 4096 (bytes_of_string "-2.5e1,")) strtod_decimal 0
                        (fresh 4096 7)))
  = mkStreamBuf 4096 (4096 + 6) (4096 + 7).
Proof.
  destruct (match_double_follows_strtod
              (mkMemory 4096 (bytes_of_string "-2.5e1,")) strtod_decimal 0%Q
              (fresh 4096 7)) as (_ & _ & H & _).
  apply H.
  - vm_compute. lia.
  - vm_compute. discriminate.
Defined.

(** ** [ArrayStreamBuf]: what a feed makes readable *)

Lemma skipn_cons_nth (l : list Z) : forall off,
  (off < length l)%nat -> skipn off l = nth off l 0 :: skipn (S off) l.
Proof.
  induction l as [|x l IH]; intros [|off] H; cbn [length] in H; try lia.
  - reflexivity.
  - cbn [skipn nth]. rewrite IH by lia. reflexivity.
Qed.

Lemma load_at_offset base l off :
  load (mkMemory base l) (base + Z.of_nat off) = nth off l 0.
Proof.
  unfold load. cbn [mbase mbytes].
  replace (base + Z.of_nat off <? base) with false
    by (symmetry; apply Z.ltb_ge; lia).
  replace (Z.to_nat (base + Z.of_nat off - base)) with off by lia.
  reflexivity.
Qed.

Lemma load_range_of_array base l n : forall off,
  (off + n <= length l)%nat ->
  map (load (mkMemory base l)) (addrs (base + Z.of_nat off) n)
  = firstn n (skipn off l).
Proof.
  induction n as [|n IH]; intros off H; [reflexivity|].
  cbn [addrs map]. rewrite load_at_offset.
  rewrite (skipn_cons_nth l off) by lia. cbn [firstn].
  replace (base + Z.of_nat off + 1) with (base + Z.of_nat (S off)) by lia.
  rewrite IH by lia. reflexivity.
Qed.

Lemma feed_fits_run N data len b :
  array_ok N b -> 0 <= len <= ptrdiff_max ->
  ArrayStreamBuf.size b + len < N ->
  ArrayStreamBuf.feed N data len b =
  (true,
   ArrayStreamBuf.mk
     (ArrayStreamBuf.this_bytes b)
     (ArrayStreamBuf.memcpy (ArrayStreamBuf.bytes b) (ArrayStreamBuf.size b) data len)
     (ArrayStreamBuf.size b + len)
     (mkStreamBuf (ArrayStreamBuf.this_bytes b)
                  (ArrayStreamBuf.this_bytes b + ArrayStreamBuf.size b)
                  (ArrayStreamBuf.this_bytes b + ArrayStreamBuf.size b + len))).
Proof.
  intros (Hlen & Hsize & HN) Hl H. unfold ArrayStreamBuf.feed.
  rewrite wrap64_small by (unfold size_max, ptrdiff_max in *; lia).
  replace (N <=? ArrayStreamBuf.size b + len) with false
    by (symmetry; apply Z.leb_gt; lia).
  reflexivity.
Qed.

Lemma feed_full_run N data len b :
  array_ok N b -> 0 <= len <= ptrdiff_max ->
  N <= ArrayStreamBuf.size b + len ->
  ArrayStreamBuf.feed N data len b = (false, b).
Proof.
  intros (Hlen & Hsize & HN) Hl H. unfold ArrayStreamBuf.feed.
  rewrite wrap64_small by (unfold size_max, ptrdiff_max in *; lia).
  replace (N <=? ArrayStreamBuf.size b + len) with true
    by (symmetry; apply Z.leb_le; lia).
  reflexivity.
Qed.

(** X17. After a successful [feed(data, len)] a cursor over the buffer
    sees exactly the bytes just fed, wherever the window stood before:
    [remaining()] is [len], the position is the previous [size], and the
    [len] bytes of the buffer's memory at the current pointer are the first
    [len] bytes of [data]. *)
Theorem feed_exposes_exactly_the_new_bytes
        (N : Z) (data : list Z) (len : Z) (b : ArrayStreamBuf.t) :
  array_ok N b ->
  0 <= len <= ptrdiff_max -> len <= Z.of_nat (length data) ->
  ArrayStreamBuf.size b + len < N ->
  let b' := snd (ArrayStreamBuf.feed N data len b) in
  fst (remaining (mkMachine (ArrayStreamBuf.area b') [])) = len /\
  fst (position (mkMachine (ArrayStreamBuf.area b') [])) = ArrayStreamBuf.size b /\
  map (load (array_memory b'))
      (addrs (gptr (ArrayStreamBuf.area b')) (Z.to_nat len))
  = firstn (Z.to_nat len) data.
Proof.
  intros Hok Hl Hdata Hfit. cbv zeta. rewrite feed_fits_run by assumption.
  destruct Hok as (Hlen & Hsize & HN).
  cbn [snd ArrayStreamBuf.area ArrayStreamBuf.bytes ArrayStreamBuf.this_bytes].
  unfold array_memory.
  cbn [ArrayStreamBuf.area ArrayStreamBuf.bytes ArrayStreamBuf.this_bytes gptr].
  destruct (memcpy_parts (ArrayStreamBuf.bytes b) data (ArrayStreamBuf.size b) len)
    as (M1 & _ & M3 & _); try lia.
  split; [|split].
  - unfold remaining. rewrite in_avail_run. cbn [fst sb gptr egptr].
    destruct (_ <? _) eqn:E; [lia|]. apply Z.ltb_ge in E. lia.
  - unfold position. run. replace (_ - _) with (ArrayStreamBuf.size b) by lia.
    apply wrap64_small. unfold size_max, ptrdiff_max in *. lia.
  - rewrite <- M3.
    replace (ArrayStreamBuf.this_bytes b + ArrayStreamBuf.size b)
      with (ArrayStreamBuf.this_bytes b
            + Z.of_nat (Z.to_nat (ArrayStreamBuf.size b))) by lia.
    apply load_range_of_array. rewrite M1. lia.
Qed.

Lemma feed_exposes_exactly_the_new_bytes_witness :
  map (load (array_memory
               (snd (ArrayStreamBuf.feed 8 [7; 8; 9] 2
                       (snd (ArrayStreamBuf.feed 8 [1; 2; 3] 3
                               (ArrayStreamBuf.create 8 4096)))))))
      (addrs (gptr (ArrayStreamBuf.area
                      (snd (ArrayStreamBuf.feed 8 [7; 8; 9] 2
                              (snd (ArrayStreamBuf.feed 8 [1; 2; 3] 3
                                      (ArrayStreamBuf.create 8 4096)))))))
             (Z.to_nat 2))
  = [7; 8].
Proof.
  destruct (feed_exposes_exactly_the_new_bytes
              8 [7; 8; 9] 2
              (snd (ArrayStreamBuf.feed 8 [1; 2; 3] 3 (ArrayStreamBuf.create 8 4096))))
    as (_ & _ & H).
  - unfold array_ok, ptrdiff_max. split; [reflexivity|cbn; lia].
  - unfold ptrdiff_max. lia.
  - cbn. lia.
  - cbn. lia.
  - rewrite H. reflexivity.
Defined.

(** ** [ArrayStreamBuf]: runs of feeds *)

Lemma firstn_plus (l : list Z) : forall a b,
  firstn (a + b) l = firstn a l ++ firstn b (skipn a l).
Proof.
  induction l as [|x l IH]; intros [|a] b; cbn [Nat.add firstn skipn app];
    try reflexivity.
  - destruct b; reflexivity.
  - rewrite IH. reflexivity.
Qed.

Lemma feed_appends N data b :
  array_ok N b -> Z.of_nat (length data) <= ptrdiff_max ->
  ArrayStreamBuf.size b + Z.of_nat (length data) < N ->
  let b' := snd (ArrayStreamBuf.feed N data (Z.of_nat (length data)) b) in
  fst (ArrayStreamBuf.feed N data (Z.of_nat (length data)) b) = true /\
  array_ok N b' /\
  ArrayStreamBuf.size b' = ArrayStreamBuf.size b + Z.of_nat (length data) /\
  firstn (Z.to_nat (ArrayStreamBuf.size b')) (ArrayStreamBuf.bytes b')
  = firstn (Z.to_nat (ArrayStreamBuf.size b)) (ArrayStreamBuf.bytes b) ++ data.
Proof.
  intros Hok Hmax Hfit. cbv zeta. rewrite feed_fits_run by (try assumption; lia).
  destruct Hok as (Hlen & Hsize & HN).
  cbn [fst snd ArrayStreamBuf.size ArrayStreamBuf.bytes].
  destruct (memcpy_parts (ArrayStreamBuf.bytes b) data (ArrayStreamBuf.size b)
                         (Z.of_nat (length data)))
    as (M1 & M2 & M3 & _); try lia.
  split; [reflexivity|]. split; [|split; [reflexivity|]].
  - unfold array_ok. cbn [ArrayStreamBuf.size ArrayStreamBuf.bytes].
    rewrite M1. lia.
  - rewrite Z2Nat.inj_add by lia. rewrite firstn_plus, M2, M3.
    rewrite Nat2Z.id, firstn_all. reflexivity.
Qed.

(** X18. A run of feeds into a buffer of capacity [N] succeeds as a whole
    when the bytes held and the bytes of all chunks together stay below [N]:
    the array then holds, after what it held, the chunks one after the other,
    and [size] has grown by their total length. When the total reaches [N]
    and there is a chunk at all, some feed of the run fails. *)
Theorem feeds_accumulate_below_capacity
        (N : Z) (chunks : list (list Z)) (b : ArrayStreamBuf.t) :
  array_ok N b ->
  Forall (fun d => Z.of_nat (length d) <= ptrdiff_max) chunks ->
  (ArrayStreamBuf.size b + Z.of_nat (length (concat chunks)) < N ->
     fst (feed_all N chunks b) = true /\
     array_ok N (snd (feed_all N chunks b)) /\
     ArrayStreamBuf.size (snd (feed_all N chunks b))
     = ArrayStreamBuf.size b + Z.of_nat (length (concat chunks)) /\
     firstn (Z.to_nat (ArrayStreamBuf.size (snd (feed_all N chunks b))))
            (ArrayStreamBuf.bytes (snd (feed_all N chunks b)))
     = firstn (Z.to_nat (ArrayStreamBuf.size b)) (ArrayStreamBuf.bytes b)
       ++ concat chunks) /\
  (chunks <> [] ->
   N <= ArrayStreamBuf.size b + Z.of_nat (length (concat chunks)) ->
     fst (feed_all N chunks b) = false).
Proof.
  revert b. induction chunks as [|d rest IH]; intros b Hok Hmax.
  - cbn [feed_all concat length Z.of_nat fst snd]. split.
    + intros _. rewrite Z.add_0_r, app_nil_r.
      split; [reflexivity|]. split; [exact Hok|]. split; reflexivity.
    + intros H. contradiction.
  - inversion Hmax as [|? ? Hd Hrest]; subst.
    cbn [concat]. rewrite length_app, Nat2Z.inj_add. cbn [feed_all].
    pose proof Hok as (Hlen & Hsize & HN).
    destruct (Z_lt_le_dec (ArrayStreamBuf.size b + Z.of_nat (length d)) N)
      as [Hfit|Hfull].
    + destruct (feed_appends N d b Hok Hd Hfit) as (F1 & F2 & F3 & F4).
      destruct (ArrayStreamBuf.feed N d (Z.of_nat (length d)) b) as [ok b'] eqn:E.
      cbn [fst snd] in F1, F2, F3, F4. subst ok.
      destruct (IH b' F2 Hrest) as [IH1 IH2]. split.
      * intros Htot. destruct IH1 as (I1 & I2 & I3 & I4); [lia|].
        split; [exact I1|]. split; [exact I2|]. split; [lia|].
        rewrite I4, F4, <- app_assoc. reflexivity.
      * intros _ Htot. destruct rest as [|d' rest'].
        -- cbn [concat length Z.of_nat] in Htot. lia.
        -- apply IH2; [discriminate|lia].
    + rewrite feed_full_run by (try assumption; lia). cbn [fst]. split.
      * intros Htot. lia.
      * intros _ _. reflexivity.
Qed.

Lemma feeds_accumulate_below_capacity_witness :
  fst (feed_all 8 [[1; 2]; []; [3; 4; 5]] (ArrayStreamBuf.create 8 4096)) = true /\
  fst (feed_all 8 [[1; 2]; [3; 4; 5; 6; 7; 8]] (ArrayStreamBuf.create 8 4096)) = false.
Proof.
  assert (Hok : array_ok 8 (ArrayStreamBuf.create 8 4096)).
  { unfold array_ok, ptrdiff_max. split; [reflexivity|cbn; lia]. }
  split.
  - destruct (feeds_accumulate_below_capacity
                8 [[1; 2]; []; [3; 4; 5]] (ArrayStreamBuf.create 8 4096) Hok)
      as (H & _).
    + repeat constructor; unfold ptrdiff_max; cbn; lia.
    + destruct H as (H & _); [cbn; lia|exact H].
  - destruct (feeds_accumulate_below_capacity
                8 [[1; 2]; [3; 4; 5; 6; 7; 8]] (ArrayStreamBuf.create 8 4096) Hok)
      as (_ & H).
    + repeat constructor; unfold ptrdiff_max; cbn; lia.
    + apply H; [discriminate|cbn; lia].
Defined.

(** X19. [reset()] brings a buffer, whatever its state, to that of a newly
    constructed one at the same address: the array zeroed, [size] 0 and the
    window empty. Such a buffer accepts a feed of [len] bytes exactly when
    [len < N]: it never holds more than [N - 1] bytes. *)
Theorem reset_buffer_is_as_new
        (N : Z) (b : ArrayStreamBuf.t) (data : list Z) (len : Z) :
  0 <= N <= ptrdiff_max -> 0 <= len <= ptrdiff_max ->
  ArrayStreamBuf.reset N b = ArrayStreamBuf.create N (ArrayStreamBuf.this_bytes b) /\
  array_ok N (ArrayStreamBuf.reset N b) /\
  fst (eof (mkMachine (ArrayStreamBuf.area (ArrayStreamBuf.reset N b)) [])) = true /\
  (fst (ArrayStreamBuf.feed N data len (ArrayStreamBuf.reset N b)) = true <-> len < N).
Proof.
  intros HN Hl.
  assert (Hok : array_ok N (ArrayStreamBuf.reset N b)).
  { unfold array_ok, ArrayStreamBuf.reset.
    cbn [ArrayStreamBuf.bytes ArrayStreamBuf.size]. rewrite repeat_length. lia. }
  split; [reflexivity|]. split; [exact Hok|]. split.
  - rewrite eof_true by (cbn; lia). reflexivity.
  - destruct (Z_lt_le_dec len N) as [H|H].
    + rewrite feed_fits_run by (try assumption; cbn; lia). cbn [fst]. tauto.
    + rewrite feed_full_run by (try assumption; cbn; lia). cbn [fst].
      split; [discriminate|lia].
Qed.

Lemma reset_buffer_is_as_new_witness :
  fst (ArrayStreamBuf.feed 8 [1; 2; 3] 3
         (ArrayStreamBuf.reset 8 (ArrayStreamBuf.of_array 8 4096 [9; 9; 9; 9; 9; 9; 9; 9])))
  = true.
Proof.
  destruct (reset_buffer_is_as_new
              8 (ArrayStreamBuf.of_array 8 4096 [9; 9; 9; 9; 9; 9; 9; 9]) [1; 2; 3] 3)
    as (_ & _ & _ & H).
  - unfold ptrdiff_max. lia.
  - unfold ptrdiff_max. lia.
  - apply H. lia.
Defined.

(** ** [NetworkStream]: the capacity *)

Lemma create_clamps cap maxSize :
  1 <= cap -> 1 <= maxSize <= ptrdiff_max ->
  stream_ok (NetworkStream.create cap maxSize) /\
  NetworkStream.pptr (NetworkStream.create cap maxSize) = 0 /\
  NetworkStream.capacity (NetworkStream.create cap maxSize) = Z.min cap maxSize /\
  NetworkStream.maxSize_ (NetworkStream.create cap maxSize) = maxSize.
Proof.
  intros Hc Hm. unfold NetworkStream.create, NetworkStream.reserve.
  cbn [NetworkStream.maxSize_ NetworkStream.data_ length Z.of_nat].
  unfold stream_ok, NetworkStream.capacity.
  cbn [NetworkStream.maxSize_ NetworkStream.data_ NetworkStream.pptr
       NetworkStream.epptr].
  destruct (maxSize <? cap) eqn:E; [apply Z.ltb_lt in E|apply Z.ltb_ge in E];
    rewrite resize_length by lia; repeat split; lia.
Qed.

Lemma write_all_capacity cs : forall s lo,
  stream_ok s -> Forall is_byte cs ->
  NetworkStream.pptr s + Z.of_nat (length cs) <= NetworkStream.maxSize_ s ->
  lo <= NetworkStream.capacity s <= Z.max lo (2 * NetworkStream.pptr s) ->
  lo <= NetworkStream.capacity (snd (NetworkStream.write_all cs s))
     <= Z.max lo (2 * NetworkStream.pptr (snd (NetworkStream.write_all cs s))).
Proof.
  induction cs as [|c cs IH]; intros s lo Hok Hb Hlen Hcap.
  - exact Hcap.
  - cbn [length] in Hlen. inversion Hb as [|? ? Hc Hcs]; subst.
    destruct (sputc_below_maxSize c s Hok Hc) as (Hr & Hok' & Hmx & Hp & _ & Hgrow);
      [lia|].
    cbn [NetworkStream.write_all].
    destruct (NetworkStream.sputc c s) as [r s'] eqn:E. cbn [fst snd] in *.
    subst r.
    replace (c =? Eof) with false
      by (symmetry; apply Z.eqb_neq; unfold is_byte, Eof in *; lia).
    apply IH; try assumption; [lia|].
    destruct Hok as (Hpp & Hep & Hcc & _).
    rewrite Hgrow, Hp.
    destruct (NetworkStream.pptr s <? NetworkStream.capacity s) eqn:Hroom;
      [apply Z.ltb_lt in Hroom|apply Z.ltb_ge in Hroom]; lia.
Qed.

(** X20. While a stream made with initial capacity [cap] and limit
    [maxSize] takes its first [maxSize] bytes, its capacity never falls below
    the initial one (the smaller of [cap] and [maxSize]), always holds the
    bytes written, never exceeds [maxSize], and is never more than twice the
    number of bytes written unless it is still the initial one. *)
Theorem capacity_within_twice_the_bytes_written
        (cap maxSize : Z) (cs : list Z) :
  1 <= cap -> 1 <= maxSize <= ptrdiff_max ->
  Forall is_byte cs -> Z.of_nat (length cs) <= maxSize ->
  Z.min cap maxSize
    <= NetworkStream.capacity
         (snd (NetworkStream.write_all cs (NetworkStream.create cap maxSize))) /\
  Z.of_nat (length cs)
    <= NetworkStream.capacity
         (snd (NetworkStream.write_all cs (NetworkStream.create cap maxSize))) /\
  NetworkStream.capacity
    (snd (NetworkStream.write_all cs (NetworkStream.create cap maxSize)))
    <= maxSize /\
  NetworkStream.capacity
    (snd (NetworkStream.write_all cs (NetworkStream.create cap maxSize)))
    <= Z.max (Z.min cap maxSize) (2 * Z.of_nat (length cs)).
Proof.
  intros Hcap Hmax Hcs Hlen.
  destruct (create_clamps cap maxSize Hcap Hmax) as (Hok0 & Hp0 & Hc0 & Hm0).
  destruct (write_all_below_maxSize cs (NetworkStream.create cap maxSize) Hok0 Hcs)
    as (_ & Wok & Wmx & Wp & _); [rewrite Hp0, Hm0; lia|].
  pose proof (write_all_capacity cs (NetworkStream.create cap maxSize)
                                 (Z.min cap maxSize) Hok0 Hcs) as Hgrow.
  rewrite Hp0, Hm0, Hc0 in Hgrow. rewrite Hp0 in Wp. rewrite Hm0 in Wmx.
  rewrite Wp in Hgrow. destruct Hgrow as [G1 G2]; [lia|lia|].
  destruct Wok as (Hpp & Hep & Hcc & _). rewrite Wmx in Hcc. rewrite Wp in Hpp.
  repeat split; lia.
Qed.

Lemma capacity_within_twice_the_bytes_written_witness :
  NetworkStream.capacity
    (snd (NetworkStream.write_all [1; 2; 3; 4; 5] (NetworkStream.create 2 100)))
  <= 10.
Proof.
  destruct (capacity_within_twice_the_bytes_written 2 100 [1; 2; 3; 4; 5])
    as (_ & _ & _ & H).
  - lia.
  - unfold ptrdiff_max. lia.
  - repeat constructor; unfold is_byte; lia.
  - cbn. lia.
  - exact H.
Defined.

(** X21. The constructor clamps the initial capacity to [maxSize]: a stream
    made with [cap >= maxSize] has capacity [maxSize] from the start and
    keeps it; it takes every run of at most [maxSize] bytes, holding exactly
    these bytes, and once [maxSize] bytes are written one more write returns
    eof and changes nothing. *)
Theorem constructor_clamps_capacity_to_maxSize
        (cap maxSize : Z) (cs : list Z) (c : Z) :
  1 <= maxSize <= ptrdiff_max -> maxSize <= cap ->
  Forall is_byte cs -> is_byte c -> Z.of_nat (length cs) <= maxSize ->
  NetworkStream.capacity (NetworkStream.create cap maxSize) = maxSize /\
  fst (NetworkStream.write_all cs (NetworkStream.create cap maxSize)) = true /\
  NetworkStream.buffer
    (snd (NetworkStream.write_all cs (NetworkStream.create cap maxSize)))
    = (cs, Z.of_nat (length cs)) /\
  NetworkStream.capacity
    (snd (NetworkStream.write_all cs (NetworkStream.create cap maxSize))) = maxSize /\
  (Z.of_nat (length cs) = maxSize ->
     NetworkStream.sputc c
       (snd (NetworkStream.write_all cs (NetworkStream.create cap maxSize)))
     = (Eof, snd (NetworkStream.write_all cs (NetworkStream.create cap maxSize)))).
Proof.
  intros Hmax Hcap Hcs Hc Hlen.
  destruct (create_clamps cap maxSize ltac:(lia) Hmax) as (Hok0 & Hp0 & Hc0 & Hm0).
  destruct (write_all_below_maxSize cs (NetworkStream.create cap maxSize) Hok0 Hcs)
    as (W1 & Wok & Wmx & Wp & Wbuf); [rewrite Hp0, Hm0; lia|].
  pose proof (write_all_capacity cs (NetworkStream.create cap maxSize)
                                 maxSize Hok0 Hcs) as Hgrow.
  rewrite Hp0, Hm0, Hc0 in Hgrow. rewrite Hp0, Z.add_0_l in Wp. rewrite Hm0 in Wmx.
  destruct Hgrow as [G1 _]; [lia|lia|].
  assert (Hb0 : fst (NetworkStream.buffer (NetworkStream.create cap maxSize)) = []).
  { unfold NetworkStream.buffer. rewrite Hp0. reflexivity. }
  rewrite Hb0 in Wbuf. cbn [app] in Wbuf.
  split; [rewrite Hc0; lia|]. split; [exact W1|]. split; [|split].
  - unfold NetworkStream.buffer in *. cbn [fst] in Wbuf. rewrite Wbuf, Wp. reflexivity.
  - pose proof Wok as (_ & _ & Hcc & _). rewrite Wmx in Hcc. lia.
  - intros Hfull. apply sputc_at_maxSize; [exact Wok|exact Hc|].
    rewrite Wp, Wmx. exact Hfull.
Qed.

Lemma constructor_clamps_capacity_to_maxSize_witness :
  NetworkStream.capacity (NetworkStream.create 64 3) = 3 /\
  NetworkStream.sputc 4 (snd (NetworkStream.write_all [1; 2; 3] (NetworkStream.create 64 3)))
  = (Eof, snd (NetworkStream.write_all [1; 2; 3] (NetworkStream.create 64 3))).
Proof.
  destruct (constructor_clamps_capacity_to_maxSize 64 3 [1; 2; 3] 4)
    as (H1 & _ & _ & _ & H5).
  - unfold ptrdiff_max. lia.
  - lia.
  - repeat constructor; unfold is_byte; lia.
  - unfold is_byte. lia.
  - cbn. lia.
  - split; [exact H1|apply H5; reflexivity].
Defined.

(** ** [match_until] followed by [match_literal] *)

(** X22. Over a window whose current pointer is not beyond its end,
    [match_until] and [match_literal] compare in the same way: when
    [match_until(c, cursor, cs)] has returned true, [match_literal(c, cursor,
    cs)] on the cursor as the scan left it returns true as well and consumes
    the byte found; when the scan has returned false, the cursor is at EOF
    and [match_literal] returns false. *)
Theorem match_literal_accepts_what_match_until_found
        (mem : Memory) (c : Z) (cs : CaseSensitivity) (w : Machine) :
  gptr (sb w) <= egptr (sb w) ->
  (fst (match_until_char mem c cs w) = Some true ->
     fst (match_literal mem c cs (snd (match_until_char mem c cs w))) = true /\
     gptr (sb (snd (match_literal mem c cs (snd (match_until_char mem c cs w)))))
     = gptr (sb (snd (match_until_char mem c cs w))) + 1) /\
  (fst (match_until_char mem c cs w) = Some false ->
     fst (match_literal mem c cs (snd (match_until_char mem c cs w))) = false).
Proof.
  intros _. unfold match_until_char.
  destruct (match_until_outcome mem [c] cs w)
    as (b & Hres & _ & He & _ & _ & Ht & Hf & _).
  rewrite Hres. split; intros Hb; inversion Hb; subst b.
  - destruct Ht as [Hlt Hfind]; [reflexivity|].
    rewrite match_literal_run by (rewrite He; exact Hlt).
    unfold char_at in Hfind. rewrite Hfind. split; reflexivity.
  - destruct Hf as [Hge _]; [reflexivity|].
    rewrite match_literal_at_eof by (rewrite He; exact Hge). reflexivity.
Qed.

Lemma match_literal_accepts_what_match_until_found_witness :
  fst (match_literal
         (mkMemory 4096 (bytes_of_string "Host: example.com")) 58 Insensitive
         (snd (match_until_char
                 (mkMemory 4096 (bytes_of_string "Host: example.com")) 58 Insensitive
                 (fresh 4096 17)))) = true.
Proof.
  destruct (match_literal_accepts_what_match_until_found
              (mkMemory 4096 (bytes_of_string "Host: example.com")) 58 Insensitive
              (fresh 4096 17)) as (H & _).
  - cbn. lia.
  - destruct H as (H & _); [reflexivity|exact H].
Defined.
